(** * Website status checker: a shallow embedding of
      [StatusCheck/url_status_checker.py] and the properties of its
      name normaliser, URL generator, probes, execution strategies and
      metrics aggregator. *)

From Stdlib Require Import List Bool Arith NArith ZArith QArith Lia Lqa.
From Stdlib Require Import Ascii String.
Import ListNotations.

Set Implicit Arguments.

Local Open Scope bool_scope.
Local Open Scope N_scope.

(** ** Python strings

    A Python [str] is a sequence of Unicode code points.  The byte-order
    mark U+FEFF and the non-ASCII white space the source reacts to are single
    code points, so a string is a list of code points, not of bytes. *)

Abbreviation codepoint := N (only parsing).
Abbreviation pystr := (list N) (only parsing).

(** [str "..."] is the Python literal with the same ASCII text. *)
Definition str (s : string) : pystr := map N_of_ascii (list_ascii_of_string s).

Definition pystr_eqb (a b : pystr) : bool :=
  if list_eq_dec N.eq_dec a b then true else false.

Definition mem (c : codepoint) (cs : list codepoint) : bool :=
  existsb (N.eqb c) cs.

(** [str.isspace] on one code point, which is also the class [\s] of a
    [str] pattern and the separator set of [str.split()] without argument. *)
Definition isspace (c : codepoint) : bool :=
  ((9 <=? c) && (c <=? 13)) || ((28 <=? c) && (c <=? 32))
  || (c =? 133) || (c =? 160) || (c =? 5760)
  || ((8192 <=? c) && (c <=? 8202))
  || (c =? 8232) || (c =? 8233) || (c =? 8239) || (c =? 8287) || (c =? 12288).

Definition SPACE : codepoint := 32.
Definition NEWLINE : codepoint := 10.
Definition DOT : codepoint := 46.

(** *** [str.strip(chars)] *)

Fixpoint drop_while (f : codepoint -> bool) (s : pystr) : pystr :=
  match s with
  | [] => []
  | c :: s' => if f c then drop_while f s' else s
  end.

Definition lstrip (chars : list codepoint) (s : pystr) : pystr :=
  drop_while (fun c => mem c chars) s.

Definition rstrip (chars : list codepoint) (s : pystr) : pystr :=
  rev (lstrip chars (rev s)).

Definition strip (chars : list codepoint) (s : pystr) : pystr :=
  rstrip chars (lstrip chars s).

(** *** [str.translate(str.maketrans('', '', deleted))] *)

Definition translate_delete (deleted : list codepoint) (s : pystr) : pystr :=
  filter (fun c => negb (mem c deleted)) s.

(** *** [str.split()] and [' '.join(...)] *)

(** [split_aux cur s]: [cur] is the word being read, in reverse. *)
Fixpoint split_aux (cur : pystr) (s : pystr) : list pystr :=
  match s with
  | [] => match cur with [] => [] | _ => [rev cur] end
  | c :: s' =>
      if isspace c
      then match cur with
           | [] => split_aux [] s'
           | _ => rev cur :: split_aux [] s'
           end
      else split_aux (c :: cur) s'
  end.

Definition split (s : pystr) : list pystr := split_aux [] s.

Fixpoint join (sep : pystr) (ws : list pystr) : pystr :=
  match ws with
  | [] => []
  | w :: ws' => match ws' with [] => w | _ => w ++ sep ++ join sep ws' end
  end.

(** *** The suffix patterns [\s+WORD$] and [\s+WORD\.?$] under [re.IGNORECASE]

    A literal letter of a case-insensitive [str] pattern matches the code
    points whose lower case is that letter; for [i] the engine adds U+0130
    and U+0131.  The letters of the six patterns are among
    [a c d e i l m n o p r t], for which these are all the matches. *)
Definition ci_literal (p c : codepoint) : bool :=
  (c =? p) || (c =? p - 32)
  || ((p =? 105) && ((c =? 304) || (c =? 305))).

(** [ci_prefix w s]: [s] starts with a case-insensitive copy of [w]; the
    rest of [s] is returned. *)
Fixpoint ci_prefix (w : pystr) (s : pystr) : option pystr :=
  match w with
  | [] => Some s
  | p :: w' =>
      match s with
      | [] => None
      | c :: s' => if ci_literal p c then ci_prefix w' s' else None
      end
  end.

Record suffix_pattern := { sp_word : pystr; sp_optional_dot : bool }.

(** [pattern.sub('', s)].  The match, if any, is unique: [$] holds at the end
    of the string or just before a final newline, so the word sits at a fixed
    distance from the end, and the leftmost start is the beginning of the
    white-space run in front of it.  The function reads the string from its
    end: optional final newline (kept), optional dot, the word, one or more
    white-space characters. *)
Definition suffix_sub (p : suffix_pattern) (s : pystr) : pystr :=
  let r := rev s in
  let '(nl, r1) :=
    match r with
    | c :: r' => if c =? NEWLINE then ([NEWLINE], r') else ([], r)
    | [] => ([], r)
    end in
  let r2 :=
    match r1 with
    | c :: r' => if sp_optional_dot p && (c =? DOT) then r' else r1
    | [] => r1
    end in
  match ci_prefix (rev (sp_word p)) r2 with
  | Some (c :: r3) =>
      if isspace c then rev (drop_while isspace r3) ++ nl else s
  | _ => s
  end.

(** ** [WebsiteChecker.clean_company_name] *)

(** The argument of [name.strip]: U+FEFF, the double and the single quote. *)
Definition strip_set : list codepoint := [65279; 34; 39].

(** The six compiled patterns, in the order of the source list. *)
Definition suffixes : list suffix_pattern :=
  [ {| sp_word := str "inc"; sp_optional_dot := true |};
    {| sp_word := str "corp"; sp_optional_dot := true |};
    {| sp_word := str "incorporated"; sp_optional_dot := false |};
    {| sp_word := str "corporation"; sp_optional_dot := false |};
    {| sp_word := str "limited"; sp_optional_dot := false |};
    {| sp_word := str "ltd"; sp_optional_dot := true |} ].

(** [for suffix in suffixes: name = suffix.sub('', name)] *)
Definition strip_suffixes (name : pystr) : pystr :=
  fold_left (fun n p => suffix_sub p n) suffixes name.

Definition punctuation : list codepoint := str "!@#$%^&*()_+-=[]{}|;:,.<>?".

Definition clean_company_name (name : pystr) : pystr :=
  let name := strip strip_set name in
  let name := strip_suffixes name in
  let name := translate_delete punctuation name in
  join [SPACE] (split name).

(** *** The [lru_cache(maxsize=1000)] wrapper

    The cache is an association list, most recently used entry first.  A hit
    returns the stored string and moves the entry to the front; a miss runs
    the body, stores the answer at the front and evicts beyond [maxsize]. *)

Definition cache := list (pystr * pystr).

Definition maxsize : nat := 1000.

Fixpoint cache_find (name : pystr) (c : cache) : option pystr :=
  match c with
  | [] => None
  | (k, v) :: c' => if pystr_eqb k name then Some v else cache_find name c'
  end.

Definition cache_remove (name : pystr) (c : cache) : cache :=
  filter (fun kv => negb (pystr_eqb (fst kv) name)) c.

Definition clean_company_name_cached (name : pystr) (c : cache)
  : pystr * cache :=
  match cache_find name c with
  | Some v => (v, (name, v) :: cache_remove name c)
  | None =>
      let v := clean_company_name name in
      (v, firstn maxsize ((name, v) :: c))
  end.

(** ** The environment of a run

    [str.lower] is the Unicode case mapping of the interpreter and the
    transport is the injectable network layer; both are parameters.  The
    transport answers one GET, given the URL and the time-out, with a status
    code or a network-layer failure, and with the time the call took.  It is
    a deterministic stub: the answer depends on the request only.  Within one
    probe the candidate URLs are pairwise different, so this is no
    restriction there. *)

Inductive failure := Timeout | ConnectionFailed | DNSFailure.

Inductive outcome :=
| Response (status : Z) (elapsed : Q)
| NetworkError (reason : failure) (elapsed : Q).

Record env := {
  str_lower : pystr -> pystr;
  http_get : pystr -> Z -> outcome
}.

Definition outcome_elapsed (o : outcome) : Q :=
  match o with Response _ e => e | NetworkError _ e => e end.

(** ** Exceptions, results and the state monad of the scripts *)

Inductive exn :=
| TypeError
| ValueError
| ZeroDivisionError
| StatisticsError
| RequestsTimeout            (* requests.exceptions.Timeout *)
| RequestsConnectionError    (* requests.exceptions.ConnectionError *)
| ClientConnectorError       (* aiohttp.ClientConnectorError *)
| AsyncioTimeoutError.       (* asyncio.TimeoutError *)

(** [except requests.RequestException] *)
Definition is_RequestException (e : exn) : bool :=
  match e with RequestsTimeout | RequestsConnectionError => true | _ => false end.

(** [except (aiohttp.ClientError, asyncio.TimeoutError)] *)
Definition is_ClientError_or_TimeoutError (e : exn) : bool :=
  match e with ClientConnectorError | AsyncioTimeoutError => true | _ => false end.

(** What evaluating a piece of code gives: a value, an exception, or a
    coroutine parked on the semaphore with nobody left to wake it. *)
Inductive result (A : Type) :=
| Ok (a : A)
| Raise (e : exn)
| Blocked.

Arguments Ok {A} a.
Arguments Raise {A} e.
Arguments Blocked {A}.

Definition rbind {A B} (r : result A) (k : A -> result B) : result B :=
  match r with
  | Ok a => k a
  | Raise e => Raise e
  | Blocked => Blocked
  end.

Definition M (S A : Type) : Type := S -> result A * S.

Definition ret {S A} (a : A) : M S A := fun s => (Ok a, s).

Definition bind {S A B} (m : M S A) (k : A -> M S B) : M S B :=
  fun s => match m s with
           | (Ok a, s') => k a s'
           | (Raise e, s') => (Raise e, s')
           | (Blocked, s') => (Blocked, s')
           end.

Definition raise {S A} (e : exn) : M S A := fun s => (Raise e, s).

Definition lift_result {S A} (r : result A) : M S A := fun s => (r, s).

(** [try: body  except <caught>: handler] *)
Definition try_except {S A} (body : M S A) (caught : exn -> bool)
    (handler : M S A) : M S A :=
  fun s => match body s with
           | (Raise e, s') => if caught e then handler s' else (Raise e, s')
           | other => other
           end.

(** [body] followed by [cleanup] on every way out of [body] that is not a
    coroutine left parked. *)
Definition finally {S A} (body : M S A) (cleanup : S -> S) : M S A :=
  fun s => match body s with
           | (Blocked, s') => (Blocked, s')
           | (r, s') => (r, cleanup s')
           end.

Declare Scope monad_scope.
Delimit Scope monad_scope with monad.
Notation "x <- c1 ;; c2" := (bind c1 (fun x => c2))
  (at level 61, c1 at next level, right associativity) : monad_scope.
Notation "c1 ;;; c2" := (bind c1 (fun _ => c2))
  (at level 61, right associativity) : monad_scope.
Notation "x <~ r1 ;; r2" := (rbind r1 (fun x => r2))
  (at level 61, r1 at next level, right associativity) : monad_scope.

(** ** The world: a virtual clock and the log of what went out

    Only network calls and sleeps take time.  [EvRequest] is logged when a GET
    is issued, [EvRateLimit] when a caller passes the rate limiter. *)

Inductive event :=
| EvRequest (url : pystr)
| EvRateLimit.

Record world := { now : Q; trace : list event }.

Definition time_time : M world Q := fun w => (Ok (now w), w).

Definition tick (d : Q) (ev : list event) (w : world) : world :=
  {| now := (now w + d)%Q; trace := trace w ++ ev |}.

(** One entry of a result list, a Python dict with these five keys;
    [status_code = None] is Python's [None]. *)
Record result_dict := {
  original_name : pystr;
  cleaned_name : pystr;
  url : pystr;
  status_code : option Z;
  time_taken : Q
}.

(** The instance attributes [__init__] assigns. *)
Record WebsiteChecker := {
  timeout : Z;
  max_concurrent : Z;
  rate_limit : Q;
  semaphore : Z;
  last_request_time : Q
}.

(** [asyncio.Semaphore(value)] refuses a negative value. *)
Definition WebsiteChecker_init (timeout max_concurrent : Z) (rate_limit : Q)
  : result WebsiteChecker :=
  if (max_concurrent <? 0)%Z then Raise ValueError
  else Ok {| timeout := timeout;
             max_concurrent := max_concurrent;
             rate_limit := rate_limit;
             semaphore := max_concurrent;
             last_request_time := 0%Q |}.

Definition default_max_concurrent : Z := 10%Z.
Definition default_rate_limit : Q := (2 # 10)%Q.
Definition default_timeout : Z := 3%Z.
Definition default_max_workers : Z := 10%Z.

Local Open Scope monad_scope.

Section Strategies.

Variable E : env.

(** ** [WebsiteChecker.generate_website_urls] *)

(** [s.replace(' ', '')] *)
Definition remove_spaces (s : pystr) : pystr :=
  filter (fun c => negb (c =? SPACE)) s.

Definition generate_website_urls (name : pystr) : list pystr :=
  let cleaned_name := remove_spaces (str_lower E (clean_company_name name)) in
  [ str "https://www." ++ cleaned_name ++ str ".com";
    str "https://" ++ cleaned_name ++ str ".com";
    str "http://www." ++ cleaned_name ++ str ".com";
    str "http://" ++ cleaned_name ++ str ".com";
    str "https://" ++ cleaned_name ++ str ".net";
    str "https://www." ++ cleaned_name ++ str ".org" ].

(** ** The blocking transport of [requests]

    [requests.get(url, timeout=timeout)]: the response's status code and
    elapsed time, or a [RequestException]. *)
Definition requests_get (url : pystr) (timeout : Z) : M world (Z * Q) :=
  fun w =>
    let o := http_get E url timeout in
    let w' := tick (outcome_elapsed o) [EvRequest url] w in
    match o with
    | Response code el => (Ok (code, el), w')
    | NetworkError Timeout _ => (Raise RequestsTimeout, w')
    | NetworkError _ _ => (Raise RequestsConnectionError, w')
    end.

(** ** [check_websites_sequential] *)

(** The inner [for url in urls] of one company.  A response appends one
    entry and leaves the loop ([break]); a [RequestException] goes on to
    the next URL; when the URLs run out the loop ends and [results] is as
    it was. *)
Fixpoint sequential_try_urls (company cleaned_name : pystr) (timeout : Z)
    (urls : list pystr) (results : list result_dict)
  : M world (list result_dict) :=
  match urls with
  | [] => ret results
  | url :: urls' =>
      try_except
        (response <- requests_get url timeout ;;
         ret (results ++ [ {| original_name := company;
                              cleaned_name := cleaned_name;
                              url := url;
                              status_code := Some (fst response);
                              time_taken := snd response |} ]))
        is_RequestException
        (sequential_try_urls company cleaned_name timeout urls' results)
  end.

(** The outer [for company in companies]. *)
Fixpoint sequential_loop (companies : list pystr) (timeout : Z)
    (results : list result_dict) : M world (list result_dict) :=
  match companies with
  | [] => ret results
  | company :: rest =>
      let cleaned_name := clean_company_name company in
      _checker <- lift_result
        (WebsiteChecker_init timeout default_max_concurrent
           default_rate_limit) ;;
      let urls := generate_website_urls company in
      results' <-
        sequential_try_urls company cleaned_name timeout urls results ;;
      sequential_loop rest timeout results'
  end.

Definition check_websites_sequential (companies : list pystr) (timeout : Z)
  : M world (list result_dict) :=
  _start_time <- time_time ;;
  results <- sequential_loop companies timeout [] ;;
  _end_time <- time_time ;;
  ret results.

(** ** [check_websites_parallel] *)

(** The [for url in urls] of [check_single_company], and the [return]
    after it: status code [0] and URL ['N/A'] when no URL answered. *)
Fixpoint single_try_urls (company cleaned_name : pystr) (timeout : Z)
    (start_time : Q) (urls : list pystr) : M world result_dict :=
  match urls with
  | [] =>
      t <- time_time ;;
      ret {| original_name := company;
             cleaned_name := cleaned_name;
             url := str "N/A";
             status_code := Some 0%Z;
             time_taken := (t - start_time)%Q |}
  | url :: urls' =>
      try_except
        (response <- requests_get url timeout ;;
         t <- time_time ;;
         ret {| original_name := company;
                cleaned_name := cleaned_name;
                url := url;
                status_code := Some (fst response);
                time_taken := (t - start_time)%Q |})
        is_RequestException
        (single_try_urls company cleaned_name timeout start_time urls')
  end.

Definition check_single_company (timeout : Z) (start_time : Q)
    (company : pystr) : M world result_dict :=
  let cleaned_name := clean_company_name company in
  _checker <- lift_result
    (WebsiteChecker_init timeout default_max_concurrent
       default_rate_limit) ;;
  let urls := generate_website_urls company in
  single_try_urls company cleaned_name timeout start_time urls.

(** [list(executor.map(f, xs))]: the results in the order of [xs].  The
    pool threads interleave, but a task's answer depends on the stub
    transport only, so the tasks are run here one after the other, which
    is the schedule of a pool of one worker. *)
Fixpoint executor_map {A B} (f : A -> M world B) (xs : list A)
  : M world (list B) :=
  match xs with
  | [] => ret []
  | x :: xs' =>
      y <- f x ;;
      ys <- executor_map f xs' ;;
      ret (y :: ys)
  end.

(** [ThreadPoolExecutor(max_workers=n)] refuses [n <= 0]. *)
Definition ThreadPoolExecutor (max_workers : Z) : result Z :=
  if (max_workers <=? 0)%Z then Raise ValueError else Ok max_workers.

Definition check_websites_parallel (companies : list pystr)
    (max_workers timeout : Z) : M world (list result_dict) :=
  start_time <- time_time ;;
  _executor <- lift_result (ThreadPoolExecutor max_workers) ;;
  results <- executor_map (check_single_company timeout start_time)
               companies ;;
  _end_time <- time_time ;;
  ret results.

End Strategies.

(** ** The cooperative strategy: [WebsiteChecker.run_async]

    The state of the event loop: the world and the one checker object whose
    semaphore and last request time the coroutines share. *)

Record loop_state := { ls_world : world; ls_self : WebsiteChecker }.

Definition lift_world {A} (m : M world A) : M loop_state A :=
  fun s => let (r, w) := m (ls_world s) in
           (r, {| ls_world := w; ls_self := ls_self s |}).

Definition get_self : M loop_state WebsiteChecker :=
  fun s => (Ok (ls_self s), s).

Definition set_semaphore (v : Z) (s : loop_state) : loop_state :=
  {| ls_world := ls_world s;
     ls_self := {| timeout := timeout (ls_self s);
                   max_concurrent := max_concurrent (ls_self s);
                   rate_limit := rate_limit (ls_self s);
                   semaphore := v;
                   last_request_time := last_request_time (ls_self s) |} |}.

Definition set_last_request_time (t : Q) (s : loop_state) : loop_state :=
  {| ls_world := ls_world s;
     ls_self := {| timeout := timeout (ls_self s);
                   max_concurrent := max_concurrent (ls_self s);
                   rate_limit := rate_limit (ls_self s);
                   semaphore := semaphore (ls_self s);
                   last_request_time := t |} |}.

(** [asyncio.sleep(d)] on the virtual clock. *)
Definition asyncio_sleep (d : Q) : M loop_state unit :=
  lift_world (fun w => (Ok tt, tick d [] w)).

(** *** Binary64 arithmetic

    The values of [time.time()] and the results of [-] on them are binary64
    numbers.  [binary64 x] is the binary64 number nearest to the rational
    [x], ties to even, with the gradual underflow of the format; the
    overflow to infinity is left out, times being far from it. *)

(** [a / d] times [2 ^ k], as a numerator and a denominator. *)
Definition scale2 (a d k : Z) : Z * Z :=
  if (0 <=? k)%Z then ((a * 2 ^ k)%Z, d) else (a, (d * 2 ^ (- k))%Z).

(** The integer nearest to [num / den], ties to even; [0 <= num], [0 < den]. *)
Definition round_half_even (num den : Z) : Z :=
  let q := (num / den)%Z in
  let r := (num mod den)%Z in
  match (2 * r ?= den)%Z with
  | Lt => q
  | Gt => (q + 1)%Z
  | Eq => if Z.even q then q else (q + 1)%Z
  end.

Definition binary64 (x : Q) : Q :=
  let n := Qnum x in
  let d := Z.pos (Qden x) in
  if (n =? 0)%Z then 0%Q
  else
    let a := Z.abs n in
    let e0 := (Z.log2 a - Z.log2 d)%Z in
    let '(a1, d1) := scale2 a d (- e0) in
    (* [2 ^ e <= a / d < 2 ^ (e + 1)] *)
    let e := if (d1 <=? a1)%Z then e0 else (e0 - 1)%Z in
    let k := (52 - Z.max e (-1022))%Z in
    let '(a2, d2) := scale2 a d k in
    let m := (Z.sgn n * round_half_even a2 d2)%Z in
    if (0 <=? k)%Z then Qmake m (Z.to_pos (2 ^ k))
    else inject_Z (m * 2 ^ (- k)).

(** [time.time()] in a coroutine: the binary64 reading of the clock. *)
Definition loop_time : M loop_state Q :=
  t <- lift_world time_time ;;
  ret (binary64 t).

(** The coroutine function [rate_limit] of the class (lines 77 to 87).  The
    two subtractions are binary64 subtractions, the times read and stored
    are binary64 readings of the clock, and the delay is the float of the
    number given to [__init__]; the comparison of two binary64 numbers is
    the comparison of the rationals they are. *)
Definition WebsiteChecker_rate_limit : M loop_state unit :=
  current_time <- loop_time ;;
  self <- get_self ;;
  let elapsed := binary64 (current_time - last_request_time self) in
  let delay := binary64 (rate_limit self) in
  (if Qlt_le_dec elapsed delay
   then asyncio_sleep (binary64 (delay - elapsed))
   else ret tt) ;;;
  t <- loop_time ;;
  fun s => (Ok tt, set_last_request_time t
                     {| ls_world := tick 0 [EvRateLimit] (ls_world s);
                        ls_self := ls_self s |}).

(** What the expression [self.rate_limit] evaluates to.  An attribute of an
    instance is looked up in the instance before the functions of its class,
    and [__init__] stores its [rate_limit] argument in the instance under
    that very name: the expression is the number, and the coroutine function
    above is out of reach through [self]. *)
Inductive pyobject :=
| PyFloat (x : Q)
| PyCoroutineFunction (body : M loop_state unit).

Definition instance_rate_limit (self : WebsiteChecker) : option pyobject :=
  Some (PyFloat (rate_limit self)).

Definition class_rate_limit : pyobject :=
  PyCoroutineFunction WebsiteChecker_rate_limit.

Definition getattr_rate_limit (self : WebsiteChecker) : pyobject :=
  match instance_rate_limit self with
  | Some obj => obj
  | None => class_rate_limit
  end.

(** [await obj()]: a number is not callable. *)
Definition await_call (obj : pyobject) : M loop_state unit :=
  match obj with
  | PyFloat _ => raise TypeError
  | PyCoroutineFunction body => body
  end.

(** [async with self.semaphore: body].  Entering waits for a free slot; a
    coroutine that finds none is parked.  Leaving gives the slot back,
    whether [body] returned or raised. *)
Definition async_with_semaphore {A} (body : M loop_state A)
  : M loop_state A :=
  fun s =>
    if (0 <? semaphore (ls_self s))%Z
    then finally body
           (fun s' => set_semaphore (semaphore (ls_self s') + 1)%Z s')
           (set_semaphore (semaphore (ls_self s) - 1)%Z s)
    else (Blocked, s).

Section Cooperative.

Variable E : env.

(** [session.get(url, timeout=self.timeout)] of [aiohttp]. *)
Definition session_get (url : pystr) (timeout : Z) : M loop_state Z :=
  lift_world (fun w =>
    let o := http_get E url timeout in
    let w' := tick (outcome_elapsed o) [EvRequest url] w in
    match o with
    | Response code _ => (Ok code, w')
    | NetworkError Timeout _ => (Raise AsyncioTimeoutError, w')
    | NetworkError _ _ => (Raise ClientConnectorError, w')
    end).

(** The [for url in ...] of [check_website_async] (lines 100 to 113):
    [Some d] when the loop returned [d] from the function, [None] when the
    URLs ran out. *)
Fixpoint async_try_urls (company cleaned_name : pystr) (timeout : Z)
    (start_time : Q) (urls : list pystr) : M loop_state (option result_dict) :=
  match urls with
  | [] => ret None
  | url :: urls' =>
      try_except
        (status <- session_get url timeout ;;
         t <- lift_world time_time ;;
         ret (Some {| original_name := company;
                      cleaned_name := cleaned_name;
                      url := url;
                      status_code := Some status;
                      time_taken := (t - start_time)%Q |}))
        is_ClientError_or_TimeoutError
        (async_try_urls company cleaned_name timeout start_time urls')
  end.

(** The lines after the [async with] block (115 to 123). *)
Definition async_no_url_works (company cleaned_name : pystr)
    (start_time : Q) : M loop_state result_dict :=
  t <- lift_world time_time ;;
  ret {| original_name := company;
         cleaned_name := cleaned_name;
         url := str "N/A";
         status_code := None;
         time_taken := (t - start_time)%Q |}.

Definition check_website_async (company_name : pystr)
  : M loop_state result_dict :=
  start_time <- lift_world time_time ;;
  let cleaned_name := clean_company_name company_name in
  returned <-
    async_with_semaphore
      (self <- get_self ;;
       await_call (getattr_rate_limit self) ;;;
       async_try_urls company_name cleaned_name (timeout self) start_time
         (generate_website_urls E company_name)) ;;
  match returned with
  | Some d => ret d
  | None => async_no_url_works company_name cleaned_name start_time
  end.

(** [asyncio.gather] over the tasks.  Every coroutine here runs from its start to
    its end without giving the loop a chance to switch (it ends before its
    first suspension, or parks on the semaphore), so the tasks run one after
    the other in the order given.  All of them run; an exception of one of
    them is what [gather] raises, the first one in that order. *)
Fixpoint run_tasks {A} (tasks : list (M loop_state A)) (s : loop_state)
  : list (result A) * loop_state :=
  match tasks with
  | [] => ([], s)
  | t :: ts =>
      let (r, s') := t s in
      let (rs, s'') := run_tasks ts s' in
      (r :: rs, s'')
  end.

Fixpoint first_raise {A} (rs : list (result A)) : option exn :=
  match rs with
  | [] => None
  | Raise e :: _ => Some e
  | _ :: rs' => first_raise rs'
  end.

Fixpoint all_values {A} (rs : list (result A)) : result (list A) :=
  match rs with
  | [] => Ok []
  | Ok a :: rs' => (vs <~ all_values rs' ;; Ok (a :: vs))
  | Raise e :: _ => Raise e
  | Blocked :: _ => Blocked
  end.

Definition gather {A} (tasks : list (M loop_state A))
  : M loop_state (list A) :=
  fun s =>
    let (rs, s') := run_tasks tasks s in
    match first_raise rs with
    | Some e => (Raise e, s')
    | None => (all_values rs, s')
    end.

Definition check_websites_async (companies : list pystr)
  : M loop_state (list result_dict) :=
  gather (map check_website_async companies).

(** [run_async]: [asyncio.run] on a fresh loop, driven by [self]. *)
Definition run_async (self : WebsiteChecker) (companies : list pystr)
  : M world (list result_dict) :=
  fun w =>
    let start := {| ls_world := w; ls_self := self |} in
    let (r, s) :=
      (_start_time <- lift_world time_time ;;
       results <- check_websites_async companies ;;
       _end_time <- lift_world time_time ;;
       ret results) start in
    (r, ls_world s).

End Cooperative.

(** ** [analyze_performance]

    Times and rates are Python floats; they are modelled by the rationals
    they round, which is enough to tell a summary from an exception. *)

Record performance_metrics := {
  total_companies : nat;
  successful_checks : Z;
  success_rate : Q;
  average_response_time : Q;
  median_response_time : Q;
  min_response_time : Q;
  max_response_time : Q
}.

(** [sum(1 for code in status_codes if code > 0)]: the comparison of [None]
    with an integer raises [TypeError]. *)
Fixpoint count_positive (status_codes : list (option Z)) : result Z :=
  match status_codes with
  | [] => Ok 0%Z
  | None :: _ => Raise TypeError
  | Some code :: rest =>
      (n <~ count_positive rest ;;
       Ok (if (0 <? code)%Z then (1 + n)%Z else n))
  end.

(** [a / n] with [n = len(results)]. *)
Definition true_div (a : Z) (n : nat) : result Q :=
  match n with
  | O => Raise ZeroDivisionError
  | _ => Ok (inject_Z a / inject_Z (Z.of_nat n))%Q
  end.

Definition Qsum (xs : list Q) : Q := fold_right Qplus 0%Q xs.

Definition statistics_mean (xs : list Q) : result Q :=
  match xs with
  | [] => Raise StatisticsError
  | _ => Ok (Qsum xs / inject_Z (Z.of_nat (List.length xs)))%Q
  end.

Fixpoint Qinsert (x : Q) (xs : list Q) : list Q :=
  match xs with
  | [] => [x]
  | y :: ys => if Qle_bool x y then x :: xs else y :: Qinsert x ys
  end.

Definition Qsort (xs : list Q) : list Q := fold_right Qinsert [] xs.

Definition statistics_median (xs : list Q) : result Q :=
  match xs with
  | [] => Raise StatisticsError
  | _ =>
      let data := Qsort xs in
      let n := List.length data in
      if Nat.odd n then Ok (nth (n / 2) data 0%Q)
      else Ok ((nth (n / 2 - 1) data 0 + nth (n / 2) data 0) / 2)%Q
  end.

Definition Qmin (a b : Q) : Q := if Qle_bool a b then a else b.
Definition Qmax (a b : Q) : Q := if Qle_bool a b then b else a.

Definition py_min (xs : list Q) : result Q :=
  match xs with
  | [] => Raise ValueError
  | x :: xs' => Ok (fold_left Qmin xs' x)
  end.

Definition py_max (xs : list Q) : result Q :=
  match xs with
  | [] => Raise ValueError
  | x :: xs' => Ok (fold_left Qmax xs' x)
  end.

(** The entries of the dict display are evaluated from top to bottom. *)
Definition analyze_performance (results : list result_dict)
  : result performance_metrics :=
  let status_codes := map status_code results in
  let response_times := map time_taken results in
  let total := List.length results in
  (successful <~ count_positive status_codes ;;
   successful' <~ count_positive status_codes ;;
   ratio <~ true_div successful' total ;;
   average <~ statistics_mean response_times ;;
   median <~ statistics_median response_times ;;
   lowest <~ py_min response_times ;;
   highest <~ py_max response_times ;;
   Ok {| total_companies := total;
         successful_checks := successful;
         success_rate := (ratio * 100)%Q;
         average_response_time := average;
         median_response_time := median;
         min_response_time := lowest;
         max_response_time := highest |}).

(** ** Observations on result lists *)

(** The result list as a mapping from company to status code: the entry of
    the last dict with that [original_name], as building a [dict] from the
    list would leave it. *)
Fixpoint lookup_company (company : pystr) (results : list result_dict)
  : option (option Z) :=
  match results with
  | [] => None
  | d :: rest =>
      match lookup_company company rest with
      | Some v => Some v
      | None => if pystr_eqb (original_name d) company
                then Some (status_code d) else None
      end
  end.

(** How many entries a result list has for a company. *)
Definition entries_for (company : pystr) (results : list result_dict) : nat :=
  List.length (filter (fun d => pystr_eqb (original_name d) company) results).


Definition is_response (o : outcome) : bool :=
  match o with Response _ _ => true | NetworkError _ _ => false end.

(** ** Concrete environments *)

(** [str.lower] on ASCII text. *)
Definition ascii_lower (s : pystr) : pystr :=
  map (fun c => if (65 <=? c) && (c <=? 90) then c + 32 else c) s.

Definition world0 : world := {| now := 0%Q; trace := [] |}.

(** A transport on which every request is refused. *)
Definition refuse_all : env :=
  {| str_lower := ascii_lower;
     http_get := fun _ _ => NetworkError ConnectionFailed 1%Q |}.

(** A transport on which every request is answered with 200. *)
Definition answer_all : env :=
  {| str_lower := ascii_lower;
     http_get := fun _ _ => Response 200%Z 1%Q |}.

(** A transport that answers only for [https://acme.net]. *)
Definition only_acme_net : env :=
  {| str_lower := ascii_lower;
     http_get := fun u _ =>
       if pystr_eqb u (str "https://acme.net")
       then Response 404%Z 1%Q
       else NetworkError Timeout 3%Q |}.

Definition default_checker : WebsiteChecker :=
  {| timeout := default_timeout;
     max_concurrent := default_max_concurrent;
     rate_limit := default_rate_limit;
     semaphore := default_max_concurrent;
     last_request_time := 0%Q |}.

(** [s.endswith(suffix)] *)
Fixpoint startswith (s prefix : pystr) {struct prefix} : bool :=
  match prefix with
  | [] => true
  | p :: prefix' =>
      match s with
      | [] => false
      | c :: s' => (c =? p) && startswith s' prefix'
      end
  end.

Definition endswith (s suffix : pystr) : bool :=
  startswith (rev s) (rev suffix).

(** [s.rstrip()] *)
Definition rstrip_space (s : pystr) : pystr :=
  rev (drop_while isspace (rev s)).

(** The cache after a sequence of calls on a cold cache. *)
Definition warm_cache (calls : list pystr) : cache :=
  fold_left (fun c name => snd (clean_company_name_cached name c)) calls [].

Definition nonspace (c : codepoint) : Prop := isspace c = false.

(** A word as [split] gives them: not empty and free of white space. *)
Definition word (w : pystr) : Prop := w <> [] /\ Forall nonspace w.

Definition kept (c : codepoint) : bool := negb (mem c punctuation).

(** Every entry of the cache holds what the body computes for its key. *)
Definition cache_sound (c : cache) : Prop :=
  Forall (fun kv => snd kv = clean_company_name (fst kv)) c.

(** The template list in the words of the specification: what stands in
    front of the name and what stands behind it, in priority order. *)
Definition spec_templates : list (pystr * pystr) :=
  [ (str "https://www.", str ".com");
    (str "https://", str ".com");
    (str "http://www.", str ".com");
    (str "http://", str ".com");
    (str "https://", str ".net");
    (str "https://www.", str ".org") ].

(** [code > 0] for a status code that is an integer. *)
Definition positive_status (code : option Z) : bool :=
  match code with
  | Some c => (0 <? c)%Z
  | None => false
  end.

(** Entries as the three strategies write them. *)
Definition entry_answered : result_dict :=
  {| original_name := str "Acme Inc."; cleaned_name := str "Acme";
     url := str "https://www.acme.com"; status_code := Some 200%Z;
     time_taken := 1%Q |}.

Definition entry_given_up_parallel : result_dict :=
  {| original_name := str "Bad News, Inc."; cleaned_name := str "Bad News";
     url := str "N/A"; status_code := Some 0%Z; time_taken := 6%Q |}.

Definition entry_given_up_async : result_dict :=
  {| original_name := str "Bad News, Inc."; cleaned_name := str "Bad News";
     url := str "N/A"; status_code := None; time_taken := 6%Q |}.

Definition start_state (w : world) (self : WebsiteChecker) : loop_state :=
  {| ls_world := w; ls_self := self |}.

(** No answer from the transport for this URL. *)
Definition fails (E : env) (timeout : Z) (u : pystr) : Prop :=
  is_response (http_get E u timeout) = false.

(** A change of the world that leaves the checker object as it is. *)
Definition with_world (f : world -> world) (s : loop_state) : loop_state :=
  {| ls_world := f (ls_world s); ls_self := ls_self s |}.

(** ** [main]

    [main] reads the company names from [companies.txt] and runs the three
    strategies in turn, each followed by [analyze_performance]; the names
    read are the argument here, and the [print] calls are left out. *)

(** The body of [for method_name, checking_method in checking_methods]. *)
Definition main_step
    (checking_method : list pystr -> M world (list result_dict))
    (companies : list pystr) : M world performance_metrics :=
  _start_time <- time_time ;;
  results <- checking_method companies ;;
  _end_time <- time_time ;;
  lift_result (analyze_performance results).

Fixpoint main_loop
    (checking_methods : list (list pystr -> M world (list result_dict)))
    (companies : list pystr) : M world unit :=
  match checking_methods with
  | [] => ret tt
  | checking_method :: rest =>
      _performance <- main_step checking_method companies ;;
      main_loop rest companies
  end.

Definition main (E : env) (companies : list pystr) : M world unit :=
  checker <- lift_result (WebsiteChecker_init 3 50 default_rate_limit) ;;
  let checking_methods :=
    [ (fun cs => check_websites_sequential E cs default_timeout);
      (fun cs => check_websites_parallel E cs default_max_workers
                   default_timeout);
      run_async E checker ] in
  main_loop checking_methods companies.

(** The transport answers this URL. *)
Definition answers (E : env) (timeout : Z) (u : pystr) : bool :=
  is_response (http_get E u timeout).

(** One of the candidate URLs of the company is answered. *)
Definition has_answer (E : env) (timeout : Z) (company : pystr) : bool :=
  existsb (answers E timeout) (generate_website_urls E company).

(** An entry written for an answered request: a candidate URL of its
    company, with the status code the transport gave for it. *)
Definition answered_entry (E : env) (timeout : Z) (d : result_dict) : Prop :=
  cleaned_name d = clean_company_name (original_name d)
  /\ In (url d) (generate_website_urls E (original_name d))
  /\ exists code el,
       http_get E (url d) timeout = Response code el
       /\ status_code d = Some code.

(** The entry [check_single_company] writes when it gives up. *)
Definition given_up_entry (E : env) (timeout : Z) (d : result_dict) : Prop :=
  cleaned_name d = clean_company_name (original_name d)
  /\ has_answer E timeout (original_name d) = false
  /\ url d = str "N/A" /\ status_code d = Some 0%Z.

(** Removing the spaces of a text, in the words of the specification:
    [spaces_removed s n] when [n] is [s] with every U+0020 left out and
    every other character kept, in its place. *)
Inductive spaces_removed : pystr -> pystr -> Prop :=
| spaces_removed_nil : spaces_removed [] []
| spaces_removed_space : forall s n,
    spaces_removed s n -> spaces_removed (SPACE :: s) n
| spaces_removed_keep : forall c s n,
    c <> SPACE -> spaces_removed s n -> spaces_removed (c :: s) (c :: n).

Definition is_ascii (s : pystr) : Prop := Forall (fun c => c < 128) s.

(** An upper-case ASCII letter. *)
Definition is_upper (c : codepoint) : bool := (65 <=? c) && (c <=? 90).

(** [c] is the lower-case letter [P] or its upper-case form. *)
Definition same_letter (P c : codepoint) : Prop := c = P \/ c = P - 32.

(** [w] spells the lower-case word [W], each letter in either case. *)
Definition spelling (W w : pystr) : Prop := Forall2 same_letter W w.

(** The six substitutions of the source, by name: [\s+Inc\.?$],
    [\s+Corp\.?$], [\s+Incorporated$], [\s+Corporation$], [\s+Limited$]
    and [\s+Ltd\.?$]. *)
Definition sub_inc : pystr -> pystr :=
  suffix_sub {| sp_word := str "inc"; sp_optional_dot := true |}.
Definition sub_corp : pystr -> pystr :=
  suffix_sub {| sp_word := str "corp"; sp_optional_dot := true |}.
Definition sub_incorporated : pystr -> pystr :=
  suffix_sub {| sp_word := str "incorporated"; sp_optional_dot := false |}.
Definition sub_corporation : pystr -> pystr :=
  suffix_sub {| sp_word := str "corporation"; sp_optional_dot := false |}.
Definition sub_limited : pystr -> pystr :=
  suffix_sub {| sp_word := str "limited"; sp_optional_dot := false |}.
Definition sub_ltd : pystr -> pystr :=
  suffix_sub {| sp_word := str "ltd"; sp_optional_dot := true |}.

(** * Properties *)

(** ** Lists of code points *)

Lemma drop_while_app_stop (f : codepoint -> bool) (p r : pystr) (c : codepoint) :
  f c = false ->
  drop_while f (p ++ c :: r) = drop_while f p ++ c :: r.
Proof.
  intros Hc. induction p as [|a p IH]; simpl.
  - now rewrite Hc.
  - destruct (f a); [exact IH | reflexivity].
Qed.

Lemma filter_all_true {A} (f : A -> bool) (l : list A) :
  Forall (fun x => f x = true) l -> filter f l = l.
Proof.
  induction 1 as [|x l Hx _ IH]; simpl; [reflexivity|].
  now rewrite Hx, IH.
Qed.

Lemma filter_Forall_true {A} (f : A -> bool) (l : list A) :
  Forall (fun x => f x = true) (filter f l).
Proof.
  induction l as [|x l IH]; simpl; [constructor|].
  destruct (f x) eqn:Hx; [constructor; assumption | assumption].
Qed.

(** ** [split] and [join] *)

Lemma split_aux_word_prefix (w s cur : pystr) :
  Forall nonspace w ->
  split_aux cur (w ++ s) = split_aux (rev w ++ cur) s.
Proof.
  intros Hw. revert cur.
  induction Hw as [|c w Hc _ IH]; intros cur; simpl; [reflexivity|].
  unfold nonspace in Hc. rewrite Hc, IH, <- app_assoc. reflexivity.
Qed.

Lemma split_aux_end (cur : pystr) :
  cur <> [] -> split_aux cur [] = [rev cur].
Proof. destruct cur; [congruence | reflexivity]. Qed.

Lemma split_aux_last (w : pystr) :
  word w ->
  forall y cur, exists ws cur',
    split_aux cur (y ++ w) = ws ++ [rev cur' ++ w].
Proof.
  intros [Hne Hw] y.
  induction y as [|c y IH]; intros cur.
  - exists [], cur. simpl.
    rewrite <- (app_nil_r w) at 1.
    rewrite split_aux_word_prefix by assumption.
    rewrite split_aux_end.
    + now rewrite rev_app_distr, rev_involutive.
    + destruct w; [congruence | simpl].
      intros H. apply app_eq_nil in H. destruct H as [H _].
      apply app_eq_nil in H. destruct H; discriminate.
  - simpl. destruct (isspace c).
    + destruct cur as [|a cur].
      * apply IH.
      * destruct (IH []) as (ws & cur' & H). rewrite H.
        now exists (rev (a :: cur) :: ws), cur'.
    + apply IH.
Qed.

Lemma join_last (sep : pystr) (ws : list pystr) (l : pystr) :
  exists q, join sep (ws ++ [l]) = q ++ l.
Proof.
  induction ws as [|w ws [q IH]].
  - now exists [].
  - exists (w ++ sep ++ q). simpl.
    destruct (ws ++ [l]) eqn:Heq.
    + destruct ws; discriminate.
    + rewrite IH. now rewrite <- !app_assoc.
Qed.

(** The normalised form of a text that ends in a word ends in that word. *)
Lemma join_split_ends_with (y w : pystr) :
  word w -> exists q, join [SPACE] (split (y ++ w)) = q ++ w.
Proof.
  intros Hw. unfold split.
  destruct (split_aux_last Hw y []) as (ws & cur' & H). rewrite H.
  destruct (join_last [SPACE] ws (rev cur' ++ w)) as [q Hq]. rewrite Hq.
  exists (q ++ rev cur'). now rewrite <- app_assoc.
Qed.

Lemma split_aux_words (s : pystr) :
  forall cur, Forall nonspace cur -> Forall word (split_aux cur s).
Proof.
  assert (Hrev : forall cur, cur <> [] -> Forall nonspace cur -> word (rev cur)).
  { intros cur Hne Hcur. split.
    - intros H. apply Hne. rewrite <- (rev_involutive cur), H. reflexivity.
    - now apply Forall_rev. }
  induction s as [|c s IH]; intros cur Hcur; simpl.
  - destruct cur; constructor; [apply Hrev; [discriminate | assumption] | constructor].
  - destruct (isspace c) eqn:Hc.
    + destruct cur.
      * apply IH. constructor.
      * constructor; [apply Hrev; [discriminate | assumption] | apply IH; constructor].
    + apply IH. constructor; assumption.
Qed.

Lemma split_join (ws : list pystr) :
  Forall word ws -> split (join [SPACE] ws) = ws.
Proof.
  unfold split. induction 1 as [|w ws [Hne Hw] Hws IH]; [reflexivity|].
  simpl. destruct ws as [|w' ws].
  - rewrite <- (app_nil_r w) at 1. rewrite split_aux_word_prefix by assumption.
    rewrite app_nil_r, split_aux_end, rev_involutive; [reflexivity|].
    intros H. apply Hne. rewrite <- (rev_involutive w), H. reflexivity.
  - rewrite split_aux_word_prefix by assumption.
    rewrite app_nil_r. change ([SPACE] ++ ?x) with (SPACE :: x).
    cbn [split_aux]. change (isspace SPACE) with true. cbn iota.
    destruct (rev w) eqn:Hr.
    + exfalso. apply Hne. rewrite <- (rev_involutive w), Hr. reflexivity.
    + rewrite <- Hr, rev_involutive. f_equal. exact IH.
Qed.

(** Normalising white space twice is normalising it once. *)
Lemma join_split_idempotent (s : pystr) :
  join [SPACE] (split (join [SPACE] (split s))) = join [SPACE] (split s).
Proof.
  rewrite split_join; [reflexivity|].
  apply split_aux_words. constructor.
Qed.

Lemma split_aux_chars (P : codepoint -> Prop) (s : pystr) :
  forall cur, Forall P cur -> Forall P s -> Forall (Forall P) (split_aux cur s).
Proof.
  induction s as [|c s IH]; intros cur Hcur Hs; simpl.
  - destruct cur; constructor; [now apply Forall_rev | constructor].
  - inversion Hs; subst. destruct (isspace c).
    + destruct cur.
      * apply IH; [constructor | assumption].
      * constructor; [now apply Forall_rev | apply IH; [constructor | assumption]].
    + apply IH; [constructor; assumption | assumption].
Qed.

Lemma join_chars (P : codepoint -> Prop) (sep : pystr) (ws : list pystr) :
  Forall P sep -> Forall (Forall P) ws -> Forall P (join sep ws).
Proof.
  intros Hsep. induction 1 as [|w ws Hw Hws IH]; simpl; [constructor|].
  destruct ws; [assumption|].
  apply Forall_app. split; [assumption|].
  apply Forall_app. split; assumption.
Qed.

Lemma startswith_app (a b : pystr) : startswith (a ++ b) a = true.
Proof.
  induction a as [|c a IH]; simpl; [reflexivity|].
  now rewrite N.eqb_refl, IH.
Qed.

Lemma endswith_app (q w : pystr) : endswith (q ++ w) w = true.
Proof. unfold endswith. rewrite rev_app_distr. apply startswith_app. Qed.

Lemma rstrip_stop (chars : list codepoint) (s : pystr) (c : codepoint) :
  mem c chars = false -> rstrip chars (s ++ [c]) = s ++ [c].
Proof.
  intros Hc. unfold rstrip, lstrip. rewrite rev_app_distr. simpl.
  rewrite Hc. simpl. now rewrite rev_involutive.
Qed.

(** ** The suffix patterns on a name that ends in two suffixes *)

Ltac suffix_eval :=
  unfold suffix_sub; rewrite rev_app_distr; cbn;
  rewrite ?rev_involutive, ?app_nil_r, <- ?app_assoc; reflexivity.

Lemma strip_suffixes_corporation_ltd (p : pystr) :
  strip_suffixes (p ++ str "Corporation Ltd") = p ++ str "Corporation".
Proof.
  unfold strip_suffixes, suffixes. cbn [fold_left].
  repeat match goal with
  | |- context [suffix_sub ?pat (p ++ str "Corporation Ltd")] =>
      replace (suffix_sub pat (p ++ str "Corporation Ltd"))
        with (p ++ str "Corporation Ltd") by (symmetry; suffix_eval)
  end.
  suffix_eval.
Qed.

Lemma strip_suffixes_ltd_corporation (p : pystr) :
  strip_suffixes (p ++ str " Ltd Corporation") = rstrip_space p.
Proof.
  unfold strip_suffixes, suffixes. cbn [fold_left].
  repeat match goal with
  | |- context [suffix_sub ?pat (p ++ str " Ltd Corporation")] =>
      first
        [ replace (suffix_sub pat (p ++ str " Ltd Corporation"))
            with (p ++ str " Ltd Corporation") by (symmetry; suffix_eval)
        | replace (suffix_sub pat (p ++ str " Ltd Corporation"))
            with (p ++ str " Ltd") by (symmetry; suffix_eval) ]
  end.
  repeat match goal with
  | |- context [suffix_sub ?pat (p ++ str " Ltd")] =>
      replace (suffix_sub pat (p ++ str " Ltd"))
        with (p ++ str " Ltd") by (symmetry; suffix_eval)
  end.
  unfold suffix_sub, rstrip_space. rewrite rev_app_distr. cbn.
  now rewrite app_nil_r.
Qed.

Lemma strip_corporation_ltd (p : pystr) :
  strip strip_set (p ++ str "Corporation Ltd")
  = lstrip strip_set p ++ str "Corporation Ltd".
Proof.
  unfold strip, lstrip at 1.
  change (str "Corporation Ltd") with (67 :: str "orporation Ltd").
  rewrite drop_while_app_stop by reflexivity.
  fold (lstrip strip_set p).
  change (67 :: str "orporation Ltd") with (str "Corporation Lt" ++ [100]).
  rewrite app_assoc. now rewrite rstrip_stop by reflexivity.
Qed.

Lemma clean_corporation_ltd (p : pystr) :
  exists q,
    clean_company_name (p ++ str "Corporation Ltd") = q ++ str "Corporation".
Proof.
  unfold clean_company_name.
  rewrite strip_corporation_ltd, strip_suffixes_corporation_ltd.
  unfold translate_delete. rewrite filter_app.
  change (filter _ (str "Corporation")) with (str "Corporation").
  apply join_split_ends_with.
  split; [discriminate | repeat constructor].
Qed.


(** ** Every suffix, in every spelling *)

Lemma same_letter_ci (P c : N) : same_letter P c -> ci_literal P c = true.
Proof.
  intros [-> | ->]; unfold ci_literal; rewrite N.eqb_refl;
    [reflexivity | now rewrite orb_true_r].
Qed.

Lemma ci_prefix_spelling (W w rest : pystr) :
  spelling W w -> ci_prefix W (w ++ rest) = Some rest.
Proof.
  induction 1 as [|P c W w Hc _ IH]; cbn; [reflexivity|].
  now rewrite (same_letter_ci Hc).
Qed.

Lemma spelling_rev (W w : pystr) : spelling W w -> spelling (rev W) (rev w).
Proof.
  unfold spelling. induction 1 as [|P c W w Hc _ IH]; cbn; [constructor|].
  apply Forall2_app; [assumption | constructor; [exact Hc | constructor]].
Qed.

(** The substitution of a pattern on a name that ends in white space and a
    spelling of its word, with or without a final dot. *)
Lemma suffix_sub_spelling (pat : suffix_pattern) (p : pystr) (sp c : N)
    (w0 : pystr) :
  isspace sp = true ->
  spelling (sp_word pat) (w0 ++ [c]) ->
  (c =? NEWLINE) = false -> (c =? DOT) = false ->
  suffix_sub pat (p ++ sp :: w0 ++ [c]) = rstrip_space p
  /\ (sp_optional_dot pat = true ->
      suffix_sub pat (p ++ sp :: (w0 ++ [c]) ++ [DOT]) = rstrip_space p).
Proof.
  intros Hsp Hw Hnl Hdot. apply spelling_rev in Hw.
  rewrite rev_app_distr in Hw. cbn [rev app] in Hw.
  split; [|intros Hopt]; unfold suffix_sub.
  - rewrite rev_app_distr. cbn [rev]. rewrite rev_app_distr.
    cbn [rev app]. rewrite <- !app_assoc. cbn [app].
    rewrite Hnl, Hdot, andb_false_r.
    change (c :: rev w0 ++ sp :: rev p)
      with ((c :: rev w0) ++ sp :: rev p).
    rewrite (ci_prefix_spelling (sp :: rev p) Hw), Hsp.
    unfold rstrip_space. now rewrite app_nil_r.
  - rewrite rev_app_distr. cbn [rev]. rewrite !rev_app_distr.
    cbn [rev app]. rewrite <- !app_assoc. cbn [app].
    change (DOT =? NEWLINE) with false. cbn iota.
    rewrite Hopt, N.eqb_refl. cbn [andb].
    change (c :: rev w0 ++ sp :: rev p)
      with ((c :: rev w0) ++ sp :: rev p).
    rewrite (ci_prefix_spelling (sp :: rev p) Hw), Hsp.
    unfold rstrip_space. now rewrite app_nil_r.
Qed.

Lemma suffix_sub_spelling_rev (pat : suffix_pattern) (p : pystr) (sp c : N)
    (w r0 : pystr) :
  isspace sp = true ->
  spelling (sp_word pat) w ->
  rev w = c :: r0 ->
  (c =? NEWLINE) = false -> (c =? DOT) = false ->
  suffix_sub pat (p ++ sp :: w) = rstrip_space p
  /\ (sp_optional_dot pat = true ->
      suffix_sub pat (p ++ sp :: w ++ [DOT]) = rstrip_space p).
Proof.
  intros Hsp Hw Hrev Hnl Hdot.
  assert (Hw0 : w = rev r0 ++ [c]).
  { rewrite <- (rev_involutive w), Hrev. reflexivity. }
  subst w. now apply suffix_sub_spelling.
Qed.

(** The last letters of a spelling, read off its end: up to four of them
    are made explicit, in both cases of each. *)
Ltac last_letters Hw :=
  let Hr := fresh "Hr" in
  pose proof (spelling_rev Hw) as Hr;
  unfold spelling in Hr; cbn in Hr;
  do 4 (try match goal with
            | H : Forall2 same_letter (_ :: _) _ |- _ =>
                inversion H; clear H; subst
            end);
  try match goal with
      | H : Forall2 same_letter [] _ |- _ => inversion H; clear H; subst
      end;
  repeat match goal with
         | H : same_letter _ ?x |- _ => destruct H as [H|H]; subst x
         end.

(** A pattern that does not match leaves the name as it is. *)
Ltac no_match Hrev :=
  unfold suffix_sub; rewrite !rev_app_distr; cbn [rev app];
  rewrite ?rev_app_distr; cbn [rev app];
  rewrite <- ?app_assoc; rewrite <- Hrev; cbn; reflexivity.

Ltac skip_patterns p Hrev :=
  repeat match goal with
         | |- context [suffix_sub ?pat (p ++ ?tail)] =>
             replace (suffix_sub pat (p ++ tail)) with (p ++ tail)
               by (symmetry; no_match Hrev)
         end.

Ltac apply_pattern p sp w Hsp Hw Hrev :=
  match goal with
  | |- context [suffix_sub ?pat (p ++ sp :: w)] =>
      rewrite (proj1 (@suffix_sub_spelling_rev pat p sp _ w _ Hsp Hw
                        (eq_sym Hrev) eq_refl eq_refl))
  | |- context [suffix_sub ?pat (p ++ sp :: w ++ [DOT])] =>
      rewrite (proj2 (@suffix_sub_spelling_rev pat p sp _ w _ Hsp Hw
                        (eq_sym Hrev) eq_refl eq_refl) eq_refl)
  end.

(** One word at the end of a name: the earlier patterns leave the name as
    it is, the word's own pattern removes it with the white space in front
    of it, and the later patterns see what is left. *)
Ltac suffix_case p sp w Hsp Hw :=
  last_letters Hw;
  match goal with
  | Hrev : _ = rev w |- _ =>
      split; unfold strip_suffixes, suffixes; cbn [fold_left];
      skip_patterns p Hrev;
      try apply_pattern p sp w Hsp Hw Hrev; reflexivity
  end.

Lemma strip_suffixes_inc (p : pystr) (sp : N) (w : pystr) :
  isspace sp = true -> spelling (str "inc") w ->
  strip_suffixes (p ++ sp :: w)
  = sub_ltd (sub_limited (sub_corporation (sub_incorporated
      (sub_corp (rstrip_space p)))))
  /\ strip_suffixes (p ++ sp :: w ++ [DOT])
     = sub_ltd (sub_limited (sub_corporation (sub_incorporated
         (sub_corp (rstrip_space p))))).
Proof. intros Hsp Hw. suffix_case p sp w Hsp Hw. Qed.

Lemma strip_suffixes_corp (p : pystr) (sp : N) (w : pystr) :
  isspace sp = true -> spelling (str "corp") w ->
  strip_suffixes (p ++ sp :: w)
  = sub_ltd (sub_limited (sub_corporation (sub_incorporated
      (rstrip_space p))))
  /\ strip_suffixes (p ++ sp :: w ++ [DOT])
     = sub_ltd (sub_limited (sub_corporation (sub_incorporated
         (rstrip_space p)))).
Proof. intros Hsp Hw. suffix_case p sp w Hsp Hw. Qed.

Lemma strip_suffixes_incorporated (p : pystr) (sp : N) (w : pystr) :
  isspace sp = true -> spelling (str "incorporated") w ->
  strip_suffixes (p ++ sp :: w)
  = sub_ltd (sub_limited (sub_corporation (rstrip_space p)))
  /\ strip_suffixes (p ++ sp :: w ++ [DOT]) = p ++ sp :: w ++ [DOT].
Proof. intros Hsp Hw. suffix_case p sp w Hsp Hw. Qed.

Lemma strip_suffixes_corporation (p : pystr) (sp : N) (w : pystr) :
  isspace sp = true -> spelling (str "corporation") w ->
  strip_suffixes (p ++ sp :: w) = sub_ltd (sub_limited (rstrip_space p))
  /\ strip_suffixes (p ++ sp :: w ++ [DOT]) = p ++ sp :: w ++ [DOT].
Proof. intros Hsp Hw. suffix_case p sp w Hsp Hw. Qed.

Lemma strip_suffixes_limited (p : pystr) (sp : N) (w : pystr) :
  isspace sp = true -> spelling (str "limited") w ->
  strip_suffixes (p ++ sp :: w) = sub_ltd (rstrip_space p)
  /\ strip_suffixes (p ++ sp :: w ++ [DOT]) = p ++ sp :: w ++ [DOT].
Proof. intros Hsp Hw. suffix_case p sp w Hsp Hw. Qed.

Lemma strip_suffixes_ltd (p : pystr) (sp : N) (w : pystr) :
  isspace sp = true -> spelling (str "ltd") w ->
  strip_suffixes (p ++ sp :: w) = rstrip_space p
  /\ strip_suffixes (p ++ sp :: w ++ [DOT]) = rstrip_space p.
Proof. intros Hsp Hw. suffix_case p sp w Hsp Hw. Qed.

(** The patterns are anchored at the end: a name whose last character is
    not a newline, a dot or the last letter of one of the six words is left
    as it is, whatever it holds before. *)
Lemma suffix_sub_anchored (pat : suffix_pattern) (q : pystr) (c : N) :
  In pat suffixes ->
  existsb (N.eqb c) [NEWLINE; DOT; 99; 67; 112; 80; 100; 68; 110; 78] = false ->
  suffix_sub pat (q ++ [c]) = q ++ [c].
Proof.
  intros Hpat Hc. cbn [existsb] in Hc.
  repeat match type of Hc with
         | (_ || _) = false =>
             let H := fresh "H" in
             apply orb_false_elim in Hc; destruct Hc as [H Hc]
         end.
  unfold suffix_sub. rewrite rev_app_distr. cbn [rev app].
  rewrite H, H0, andb_false_r.
  cbn [In suffixes] in Hpat.
  repeat (destruct Hpat as [<- | Hpat];
          [cbn; unfold ci_literal; cbn;
           rewrite ?H1, ?H2, ?H3, ?H4, ?H5, ?H6, ?H7, ?H8; reflexivity|]).
  contradiction.
Qed.

Lemma strip_suffixes_anchored (q : pystr) (c : N) :
  existsb (N.eqb c) [NEWLINE; DOT; 99; 67; 112; 80; 100; 68; 110; 78] = false ->
  strip_suffixes (q ++ [c]) = q ++ [c].
Proof.
  intros Hc. unfold strip_suffixes.
  assert (Hall : forall ps, incl ps suffixes ->
            fold_left (fun n p => suffix_sub p n) ps (q ++ [c]) = q ++ [c]).
  { induction ps as [|pat ps IH]; intros Hin; cbn [fold_left]; [reflexivity|].
    rewrite suffix_sub_anchored; [|apply Hin; now left|exact Hc].
    apply IH. intros x Hx. apply Hin. now right. }
  apply Hall, incl_refl.
Qed.

(** White space in front of the word is required: the word alone, at the
    end of a longer word, is not a suffix. *)
Lemma suffix_sub_no_space (pat : suffix_pattern) (p : pystr) (c x : N)
    (w r0 : pystr) :
  isspace c = false ->
  spelling (sp_word pat) w ->
  rev w = x :: r0 ->
  (x =? NEWLINE) = false -> (x =? DOT) = false ->
  suffix_sub pat (p ++ c :: w) = p ++ c :: w.
Proof.
  intros Hc Hw Hrev Hnl Hdot. apply spelling_rev in Hw.
  unfold suffix_sub. rewrite rev_app_distr. cbn [rev].
  rewrite <- app_assoc. cbn [app]. rewrite Hrev. cbn [app].
  rewrite Hnl, Hdot, andb_false_r.
  change (x :: r0 ++ c :: rev p) with ((x :: r0) ++ c :: rev p).
  rewrite <- Hrev.
  now rewrite (ci_prefix_spelling (c :: rev p) Hw), Hc.
Qed.

Ltac glued_case p c w Hc Hw :=
  last_letters Hw;
  match goal with
  | Hrev : _ = rev w |- _ =>
      unfold strip_suffixes, suffixes; cbn [fold_left];
      repeat match goal with
             | |- context [suffix_sub ?pat (p ++ c :: w)] =>
                 first
                   [ replace (suffix_sub pat (p ++ c :: w)) with (p ++ c :: w)
                       by (symmetry; no_match Hrev)
                   | rewrite (@suffix_sub_no_space pat p c _ w _ Hc Hw
                                (eq_sym Hrev) eq_refl eq_refl) ]
             end;
      reflexivity
  end.

Lemma strip_suffixes_needs_space (p : pystr) (c : N) (W w : pystr) :
  In W (map sp_word suffixes) ->
  isspace c = false -> spelling W w ->
  strip_suffixes (p ++ c :: w) = p ++ c :: w.
Proof.
  intros HW Hc Hw. cbn [In map suffixes sp_word] in HW.
  repeat (destruct HW as [<- | HW]; [glued_case p c w Hc Hw|]).
  contradiction.
Qed.

Ltac spell :=
  repeat first
    [ apply Forall2_nil
    | apply Forall2_cons;
      [first [left; reflexivity | right; reflexivity]|] ].

(** C7 (amended). The six patterns are applied once each, in the order Inc,
    Corp, Incorporated, Corporation, Limited, Ltd, to the string the
    previous one left.  A name that ends in white space and one of the six
    words, each letter in either case, loses the word together with the
    white space in front of it, and only the later patterns are tried on
    what is left; a final dot after the word is accepted for Inc, Corp and
    Ltd, and keeps Incorporated, Corporation and Limited in place.  The
    patterns are anchored at the end: a name whose last character is not a
    newline, a dot or a final letter of the six words is unchanged, and so
    is a name in which the word follows a character that is not white
    space.  A name
    that ends in "Corporation Ltd" therefore loses only " Ltd", since
    Corporation was tried before Ltd was removed, and its cleaned form ends
    in "Corporation"; a name that ends in " Ltd Corporation" loses both
    suffixes. *)
Theorem clean_company_name_suffix_order (p : pystr) (sp : N) :
  isspace sp = true ->
  (forall name,
     strip_suffixes name
     = sub_ltd (sub_limited (sub_corporation (sub_incorporated
         (sub_corp (sub_inc name))))))
  /\ (forall w, spelling (str "inc") w ->
        strip_suffixes (p ++ sp :: w)
        = sub_ltd (sub_limited (sub_corporation (sub_incorporated
            (sub_corp (rstrip_space p)))))
        /\ strip_suffixes (p ++ sp :: w ++ [DOT])
           = sub_ltd (sub_limited (sub_corporation (sub_incorporated
               (sub_corp (rstrip_space p))))))
  /\ (forall w, spelling (str "corp") w ->
        strip_suffixes (p ++ sp :: w)
        = sub_ltd (sub_limited (sub_corporation (sub_incorporated
            (rstrip_space p))))
        /\ strip_suffixes (p ++ sp :: w ++ [DOT])
           = sub_ltd (sub_limited (sub_corporation (sub_incorporated
               (rstrip_space p)))))
  /\ (forall w, spelling (str "incorporated") w ->
        strip_suffixes (p ++ sp :: w)
        = sub_ltd (sub_limited (sub_corporation (rstrip_space p)))
        /\ strip_suffixes (p ++ sp :: w ++ [DOT]) = p ++ sp :: w ++ [DOT])
  /\ (forall w, spelling (str "corporation") w ->
        strip_suffixes (p ++ sp :: w)
        = sub_ltd (sub_limited (rstrip_space p))
        /\ strip_suffixes (p ++ sp :: w ++ [DOT]) = p ++ sp :: w ++ [DOT])
  /\ (forall w, spelling (str "limited") w ->
        strip_suffixes (p ++ sp :: w) = sub_ltd (rstrip_space p)
        /\ strip_suffixes (p ++ sp :: w ++ [DOT]) = p ++ sp :: w ++ [DOT])
  /\ (forall w, spelling (str "ltd") w ->
        strip_suffixes (p ++ sp :: w) = rstrip_space p
        /\ strip_suffixes (p ++ sp :: w ++ [DOT]) = rstrip_space p)
  /\ (forall c,
        existsb (N.eqb c) [NEWLINE; DOT; 99; 67; 112; 80; 100; 68; 110; 78]
        = false ->
        strip_suffixes (p ++ [c]) = p ++ [c])
  /\ (forall c W w,
        In W [str "inc"; str "corp"; str "incorporated"; str "corporation";
              str "limited"; str "ltd"] ->
        isspace c = false -> spelling W w ->
        strip_suffixes (p ++ c :: w) = p ++ c :: w)
  /\ strip_suffixes (p ++ str "Corporation Ltd") = p ++ str "Corporation"
  /\ endswith (clean_company_name (p ++ str "Corporation Ltd"))
       (str "Corporation") = true
  /\ strip_suffixes (p ++ str " Ltd Corporation") = rstrip_space p.
Proof.
  intros Hsp.
  split; [reflexivity|].
  split; [intros w Hw; now apply strip_suffixes_inc|].
  split; [intros w Hw; now apply strip_suffixes_corp|].
  split; [intros w Hw; now apply strip_suffixes_incorporated|].
  split; [intros w Hw; now apply strip_suffixes_corporation|].
  split; [intros w Hw; now apply strip_suffixes_limited|].
  split; [intros w Hw; now apply strip_suffixes_ltd|].
  split; [intros c Hc; now apply strip_suffixes_anchored|].
  split; [intros c W w HW Hc Hw; now apply strip_suffixes_needs_space with W|].
  split; [apply strip_suffixes_corporation_ltd|].
  split; [|apply strip_suffixes_ltd_corporation].
  destruct (clean_corporation_ltd p) as [q Hq]. rewrite Hq.
  apply endswith_app.
Qed.

Lemma clean_company_name_suffix_order_witness :
  isspace SPACE = true
  /\ strip_suffixes (str "Acme iNC.") = str "Acme"
  /\ strip_suffixes (str "Acme CORP") = str "Acme"
  /\ strip_suffixes (str "Acme Limited.") = str "Acme Limited."
  /\ strip_suffixes (str "Acme Ltd Holdings") = str "Acme Ltd Holdings"
  /\ strip_suffixes (str "Acme Zinc") = str "Acme Zinc"
  /\ strip_suffixes (str "Acme Inc Ltd") = str "Acme Inc"
  /\ strip_suffixes (str "Acme Ltd INCORPORATED") = str "Acme".
Proof.
  split; [reflexivity|].
  pose proof (clean_company_name_suffix_order (str "Acme") SPACE eq_refl)
    as (_ & Hinc & Hcorp & _ & _ & Hlimited & _).
  pose proof (clean_company_name_suffix_order (str "Acme Inc") SPACE eq_refl)
    as (_ & _ & _ & _ & _ & _ & Hltd & _).
  pose proof (clean_company_name_suffix_order (str "Acme Ltd") SPACE eq_refl)
    as (_ & _ & _ & Hincorporated & _).
  pose proof (clean_company_name_suffix_order (str "Acme Ltd Holding") SPACE eq_refl)
    as (_ & _ & _ & _ & _ & _ & _ & Hanchored & _).
  pose proof (clean_company_name_suffix_order (str "Acme ") SPACE eq_refl)
    as (_ & _ & _ & _ & _ & _ & _ & _ & Hglued & _).
  split; [exact (proj2 (Hinc (str "iNC") ltac:(spell)))|].
  split; [exact (proj1 (Hcorp (str "CORP") ltac:(spell)))|].
  split; [exact (proj2 (Hlimited (str "Limited") ltac:(spell)))|].
  split; [exact (Hanchored 115 eq_refl)|].
  split; [exact (Hglued 90 (str "inc") (str "inc") (or_introl eq_refl)
                   eq_refl ltac:(spell))|].
  split; [exact (proj1 (Hltd (str "Ltd") ltac:(spell)))|].
  exact (proj1 (Hincorporated (str "INCORPORATED") ltac:(spell))).
Defined.

(** C7 (as stated) fails: "Acme Corporation Ltd" ends in "Corporation Ltd"
    and is cleaned to "Acme Corporation", which still ends in
    "Corporation". *)
Lemma clean_company_name_keeps_corporation :
  endswith (str "Acme Corporation Ltd") (str "Corporation Ltd") = true
  /\ clean_company_name (str "Acme Corporation Ltd") = str "Acme Corporation"
  /\ ~ (endswith (clean_company_name (str "Acme Corporation Ltd"))
          (str "Corporation") = false
        /\ endswith (clean_company_name (str "Acme Corporation Ltd"))
             (str "Ltd") = false).
Proof.
  split; [reflexivity|]. split; [reflexivity|].
  intros [H _]. vm_compute in H. discriminate.
Qed.

(** ** The cache is not observable *)

Lemma pystr_eqb_eq (a b : pystr) : pystr_eqb a b = true -> a = b.
Proof. unfold pystr_eqb. destruct (list_eq_dec N.eq_dec a b); [trivial | discriminate]. Qed.

Lemma cache_find_sound (name : pystr) (c : cache) (v : pystr) :
  cache_sound c -> cache_find name c = Some v -> v = clean_company_name name.
Proof.
  induction 1 as [|[k v'] c Hkv _ IH]; simpl; [discriminate|].
  destruct (pystr_eqb k name) eqn:Hk.
  - intros [= <-]. apply pystr_eqb_eq in Hk. subst k. exact Hkv.
  - exact IH.
Qed.

Lemma cached_returns_body (name : pystr) (c : cache) :
  cache_sound c ->
  fst (clean_company_name_cached name c) = clean_company_name name.
Proof.
  intros Hc. unfold clean_company_name_cached.
  destruct (cache_find name c) eqn:Hf; [|reflexivity].
  simpl. eapply cache_find_sound; eassumption.
Qed.

Lemma cached_keeps_sound (name : pystr) (c : cache) :
  cache_sound c -> cache_sound (snd (clean_company_name_cached name c)).
Proof.
  intros Hc. unfold clean_company_name_cached, cache_sound in *.
  destruct (cache_find name c) eqn:Hf; simpl snd.
  - constructor.
    + simpl. eapply cache_find_sound; eassumption.
    + unfold cache_remove. apply Forall_forall. intros kv Hin.
      apply filter_In in Hin. destruct Hin as [Hin _].
      revert kv Hin. now apply Forall_forall.
  - assert (Hall : Forall (fun kv => snd kv = clean_company_name (fst kv))
                     ((name, clean_company_name name) :: c))
      by (constructor; [reflexivity | assumption]).
    rewrite <- (firstn_skipn maxsize) in Hall.
    apply Forall_app in Hall. exact (proj1 Hall).
Qed.

Lemma warm_cache_sound (calls : list pystr) : cache_sound (warm_cache calls).
Proof.
  unfold warm_cache.
  assert (H : forall c, cache_sound c ->
            cache_sound (fold_left
              (fun c name => snd (clean_company_name_cached name c)) calls c)).
  { induction calls as [|n calls IH]; intros c Hc; simpl; [assumption|].
    apply IH. now apply cached_keeps_sound. }
  apply H. constructor.
Qed.

(** ** Cleaning a cleaned name *)

Lemma clean_company_name_kept (s : pystr) :
  Forall (fun c => kept c = true) (clean_company_name s).
Proof.
  unfold clean_company_name. apply join_chars.
  - repeat constructor.
  - apply split_aux_chars; [constructor|]. apply filter_Forall_true.
Qed.

(** C6 (amended). [clean_company_name] is pure: whatever earlier calls left
    in the cache, the cached function returns what its body computes.  It is
    idempotent on the inputs whose cleaned form is left alone by the two
    stripping steps, that is, has no BOM or quote at either end and no
    corporate suffix at its end. *)
Theorem clean_company_name_pure_and_stable (calls : list pystr) (s : pystr) :
  fst (clean_company_name_cached s (warm_cache calls)) = clean_company_name s
  /\ (strip strip_set (clean_company_name s) = clean_company_name s ->
      strip_suffixes (clean_company_name s) = clean_company_name s ->
      clean_company_name (clean_company_name s) = clean_company_name s).
Proof.
  split.
  - apply cached_returns_body, warm_cache_sound.
  - intros Hstrip Hsuffix.
    pose proof (clean_company_name_kept s) as Hkept.
    set (t := clean_company_name s) in *.
    change (clean_company_name t)
      with (join [SPACE] (split (translate_delete punctuation
              (strip_suffixes (strip strip_set t))))).
    rewrite Hstrip, Hsuffix.
    unfold translate_delete. fold kept.
    change (fun c => kept c) with kept.
    rewrite (filter_all_true kept Hkept).
    subst t. unfold clean_company_name. apply join_split_idempotent.
Qed.

Lemma clean_company_name_pure_and_stable_witness :
  fst (clean_company_name_cached (str "Acme Inc.")
         (warm_cache [str "Acme Inc."; str "Bad News, Inc."]))
  = clean_company_name (str "Acme Inc.")
  /\ clean_company_name (clean_company_name (str "Acme Inc."))
     = clean_company_name (str "Acme Inc.").
Proof.
  destruct (clean_company_name_pure_and_stable
              [str "Acme Inc."; str "Bad News, Inc."] (str "Acme Inc."))
    as [Hpure Hidem].
  split; [exact Hpure | apply Hidem; reflexivity].
Defined.

(** C6 (as stated) fails: "Acme Inc Corp" is cleaned to "Acme Inc", which is
    cleaned to "Acme". *)
Lemma clean_company_name_not_idempotent :
  clean_company_name (str "Acme Inc Corp") = str "Acme Inc"
  /\ clean_company_name (clean_company_name (str "Acme Inc Corp")) = str "Acme"
  /\ clean_company_name (clean_company_name (str "Acme Inc Corp"))
     <> clean_company_name (str "Acme Inc Corp").
Proof.
  split; [reflexivity|]. split; [reflexivity|].
  vm_compute. discriminate.
Qed.

(** ** The candidate URLs *)

Lemma remove_spaces_no_space (s : pystr) : ~ In SPACE (remove_spaces s).
Proof.
  unfold remove_spaces. intros H. apply filter_In in H.
  destruct H as [_ H]. discriminate.
Qed.

Lemma remove_spaces_spec (s : pystr) : spaces_removed s (remove_spaces s).
Proof.
  induction s as [|c s IH]; cbn; [constructor|].
  destruct (c =? SPACE) eqn:Hc; cbn.
  - apply N.eqb_eq in Hc. subst c. now constructor.
  - apply N.eqb_neq in Hc. now constructor.
Qed.

(** What [spaces_removed] relates a text to is unique. *)
Lemma spaces_removed_functional (s n n' : pystr) :
  spaces_removed s n -> spaces_removed s n' -> n = n'.
Proof.
  intros H. revert n'. induction H as [|s n _ IH|c s n Hc _ IH]; intros n' H'.
  - now inversion H'.
  - inversion H' as [|s0 n0 H0|c0 s0 n0 Hc0 H0]; subst;
      [now apply IH | congruence].
  - inversion H' as [|s0 n0 H0|c0 s0 n0 Hc0 H0]; subst;
      [congruence | f_equal; now apply IH].
Qed.

Lemma ascii_lower_no_upper (s : pystr) :
  Forall (fun c => is_upper c = false) (remove_spaces (ascii_lower s)).
Proof.
  unfold remove_spaces, ascii_lower. apply Forall_forall. intros c Hin.
  apply filter_In in Hin. destruct Hin as [Hin _].
  apply in_map_iff in Hin. destruct Hin as (c0 & <- & _).
  unfold is_upper.
  destruct ((65 <=? c0) && (c0 <=? 90)) eqn:Hup.
  - apply andb_true_iff in Hup. destruct Hup as [H1 H2].
    apply N.leb_le in H1, H2. apply andb_false_iff. right.
    apply N.leb_gt. lia.
  - exact Hup.
Qed.

(** C9. [generate_website_urls] lower-cases the cleaned name, removes the
    spaces (every U+0020 and nothing else) and returns the six templates of
    the specification filled with that name, in the listed order; being a
    function of its argument, it gives the same sequence for the same input;
    a name that is cleaned to the empty string gives the six URLs with an
    empty name part; and where [str.lower] acts on ASCII text as it does in
    Python, the name part of an ASCII name is the cleaned name with its
    upper-case letters turned into lower case and its spaces left out. *)
Theorem generate_website_urls_templates (E : env) (name : pystr) :
  exists n,
    spaces_removed (str_lower E (clean_company_name name)) n
    /\ n = remove_spaces (str_lower E (clean_company_name name))
    /\ generate_website_urls E name
       = [ str "https://www." ++ n ++ str ".com";
           str "https://" ++ n ++ str ".com";
           str "http://www." ++ n ++ str ".com";
           str "http://" ++ n ++ str ".com";
           str "https://" ++ n ++ str ".net";
           str "https://www." ++ n ++ str ".org" ]
    /\ generate_website_urls E name
       = map (fun t => fst t ++ n ++ snd t) spec_templates
    /\ ~ In SPACE n
    /\ List.length (generate_website_urls E name) = 6%nat
    /\ (str_lower E [] = [] ->
        clean_company_name name = [] ->
        generate_website_urls E name
        = [ str "https://www..com"; str "https://.com";
            str "http://www..com"; str "http://.com"; str "https://.net";
            str "https://www..org" ])
    /\ ((forall s, is_ascii s -> str_lower E s = ascii_lower s) ->
        is_ascii (clean_company_name name) ->
        spaces_removed (ascii_lower (clean_company_name name)) n
        /\ Forall (fun c => is_upper c = false) n).
Proof.
  exists (remove_spaces (str_lower E (clean_company_name name))).
  split; [apply remove_spaces_spec|].
  split; [reflexivity|]. split; [reflexivity|]. split; [reflexivity|].
  split; [apply remove_spaces_no_space|].
  split; [reflexivity|].
  split.
  - intros Hlower Hclean. unfold generate_website_urls.
    rewrite Hclean, Hlower. reflexivity.
  - intros Hlower Hascii. rewrite (Hlower _ Hascii).
    split; [apply remove_spaces_spec | apply ascii_lower_no_upper].
Qed.

Lemma generate_website_urls_templates_witness :
  generate_website_urls refuse_all (str "?!")
  = [ str "https://www..com"; str "https://.com"; str "http://www..com";
      str "http://.com"; str "https://.net"; str "https://www..org" ]
  /\ generate_website_urls refuse_all (str "Bad News, Inc.")
     = [ str "https://www.badnews.com"; str "https://badnews.com";
         str "http://www.badnews.com"; str "http://badnews.com";
         str "https://badnews.net"; str "https://www.badnews.org" ].
Proof.
  split.
  - destruct (generate_website_urls_templates refuse_all (str "?!"))
      as (n & _ & _ & _ & _ & _ & _ & Hempty & _).
    apply Hempty; reflexivity.
  - destruct (generate_website_urls_templates refuse_all
                (str "Bad News, Inc."))
      as (n & _ & _ & Hurls & _ & _ & _ & _ & Hascii).
    destruct Hascii as [Hn _];
      [ intros s _; reflexivity
      | repeat constructor
      | ].
    rewrite Hurls.
    rewrite (spaces_removed_functional Hn
               (remove_spaces_spec
                  (ascii_lower (clean_company_name (str "Bad News, Inc."))))).
    reflexivity.
Defined.

(** ** The aggregator *)

Lemma count_positive_value (codes : list (option Z)) (n : Z) :
  count_positive codes = Ok n ->
  n = Z.of_nat (List.length (filter positive_status codes)).
Proof.
  revert n. induction codes as [|[c|] codes IH];
    cbn [count_positive rbind]; intros n H.
  - now inversion H.
  - destruct (count_positive codes) as [m| |]; cbn [rbind] in H;
      try discriminate.
    specialize (IH m eq_refl).
    cbn [filter positive_status].
    destruct (0 <? c)%Z;
      [ assert (Hn : n = (1 + m)%Z) by congruence
      | assert (Hn : n = m) by congruence ];
      rewrite Hn; cbn [List.length]; lia.
  - discriminate.
Qed.

Lemma count_positive_integers (codes : list (option Z)) :
  Forall (fun code => code <> None) codes ->
  exists n, count_positive codes = Ok n.
Proof.
  induction 1 as [|[c|] codes Hc _ [n IH]]; simpl.
  - now exists 0%Z.
  - rewrite IH. simpl. eauto.
  - congruence.
Qed.

Lemma count_positive_none (codes : list (option Z)) :
  In None codes -> count_positive codes = Raise TypeError.
Proof.
  induction codes as [|[c|] codes IH]; simpl; intros H.
  - contradiction.
  - destruct H as [H|H]; [discriminate|]. now rewrite IH.
  - reflexivity.
Qed.

Lemma analyze_performance_none (results : list result_dict) (d : result_dict) :
  In d results -> status_code d = None ->
  analyze_performance results = Raise TypeError.
Proof.
  intros Hin Hnone. unfold analyze_performance.
  rewrite count_positive_none; [reflexivity|].
  rewrite <- Hnone. now apply in_map.
Qed.

Lemma analyze_performance_returns (results : list result_dict) :
  results <> [] ->
  Forall (fun d => status_code d <> None) results ->
  exists m, analyze_performance results = Ok m.
Proof.
  intros Hne Hall. unfold analyze_performance.
  destruct (count_positive_integers (codes := map status_code results)) as [n Hn].
  { apply Forall_map. exact Hall. }
  rewrite Hn. destruct results as [|d results]; [congruence|].
  cbn [rbind true_div List.length map statistics_mean statistics_median
       py_min py_max].
  destruct (Nat.odd _); cbn [rbind]; eauto.
Qed.

(** C10. A summary counts as successful exactly the entries whose status
    code is an integer greater than 0; and a result list that holds an entry
    with status code [None] makes [analyze_performance] raise [TypeError]. *)
Theorem analyze_performance_success_count (results : list result_dict) :
  (forall m, analyze_performance results = Ok m ->
     successful_checks m
     = Z.of_nat (List.length
         (filter (fun d => positive_status (status_code d)) results))
     /\ total_companies m = List.length results)
  /\ (forall d, In d results -> status_code d = None ->
        analyze_performance results = Raise TypeError).
Proof.
  split; [|apply analyze_performance_none].
  intros m. unfold analyze_performance.
  destruct (count_positive (map status_code results)) as [n| |] eqn:Hn;
    simpl; try discriminate.
  apply count_positive_value in Hn.
  repeat match goal with
  | |- context [rbind ?r _] => destruct r; simpl; try discriminate
  end.
  intros [= <-]. simpl. split; [|reflexivity].
  rewrite Hn. clear. f_equal.
  induction results as [|d results IH]; simpl; [reflexivity|].
  destruct (positive_status (status_code d)); simpl; now rewrite IH.
Qed.

Lemma analyze_performance_success_count_witness :
  (exists m,
     analyze_performance [entry_answered; entry_given_up_parallel] = Ok m
     /\ successful_checks m = 1%Z)
  /\ analyze_performance [entry_answered; entry_given_up_async]
     = Raise TypeError.
Proof.
  split.
  - destruct (analyze_performance [entry_answered; entry_given_up_parallel])
      as [m| |] eqn:Hm; try (vm_compute in Hm; discriminate).
    exists m. split; [reflexivity|].
    exact (proj1 (proj1 (analyze_performance_success_count
                           [entry_answered; entry_given_up_parallel]) m Hm)).
  - apply (proj2 (analyze_performance_success_count
                    [entry_answered; entry_given_up_async])
             entry_given_up_async); [right; left|]; reflexivity.
Defined.

Lemma status_code_dec (d : result_dict) :
  {status_code d <> None} + {~ status_code d <> None}.
Proof.
  destruct (status_code d); [left; discriminate | right; intros H; now apply H].
Qed.

(** C5 (amended). [analyze_performance] has no NoData condition: on an empty
    result list it raises [ZeroDivisionError], from the division by
    [len(results)].  On every non-empty list whose status codes are all
    integers it returns a summary, and it raises nothing else than that
    [ZeroDivisionError] and the [TypeError] of a [None] status code. *)
Theorem analyze_performance_empty_or_summary (results : list result_dict) :
  (results = [] -> analyze_performance results = Raise ZeroDivisionError)
  /\ (results <> [] ->
      Forall (fun d => status_code d <> None) results ->
      exists m, analyze_performance results = Ok m)
  /\ (forall e, analyze_performance results = Raise e ->
        (results = [] /\ e = ZeroDivisionError)
        \/ (e = TypeError
            /\ exists d, In d results /\ status_code d = None))
  /\ analyze_performance results <> Blocked.
Proof.
  split; [intros ->; reflexivity|].
  split; [apply analyze_performance_returns|].
  destruct results as [|d0 results].
  - split; [|discriminate].
    intros e H. left. split; [reflexivity|]. now inversion H.
  - destruct (Forall_Exists_dec _ status_code_dec (d0 :: results))
      as [Hall|Hex].
    + destruct (analyze_performance_returns (results := d0 :: results))
        as [m Hm]; [discriminate | assumption |].
      rewrite Hm. split; [intros e H|]; discriminate.
    + apply Exists_exists in Hex. destruct Hex as (d & Hin & Hd).
      assert (Hnone : status_code d = None).
      { destruct (status_code d); [exfalso; apply Hd; discriminate | reflexivity]. }
      rewrite (analyze_performance_none _ _ Hin Hnone).
      split; [|discriminate].
      intros e [= <-]. right. split; [reflexivity|]. eauto.
Qed.

Lemma analyze_performance_empty_or_summary_witness :
  analyze_performance [] = Raise ZeroDivisionError
  /\ exists m,
       analyze_performance [entry_answered; entry_given_up_parallel] = Ok m.
Proof.
  split.
  - apply (proj1 (analyze_performance_empty_or_summary [])). reflexivity.
  - apply (proj1 (proj2 (analyze_performance_empty_or_summary
                           [entry_answered; entry_given_up_parallel]))).
    + discriminate.
    + repeat constructor; discriminate.
Defined.

(** C5 (as stated) fails: the empty list gives the division-by-zero error
    the claim excludes, and a non-empty list can fail as well. *)
Lemma analyze_performance_divides_by_zero :
  analyze_performance [] = Raise ZeroDivisionError
  /\ [entry_given_up_async] <> []
  /\ analyze_performance [entry_given_up_async] = Raise TypeError.
Proof. repeat split; try reflexivity. discriminate. Qed.

Unset Implicit Arguments.

(** ** One request through the blocking transport *)

Lemma fails_network_error (E : env) (timeout : Z) (u : pystr) :
  fails E timeout u ->
  exists reason el, http_get E u timeout = NetworkError reason el.
Proof.
  unfold fails. destruct (http_get E u timeout) as [c el|reason el];
    [discriminate | eauto].
Qed.

Lemma requests_get_response (E : env) (timeout code : Z) (el : Q)
    (u : pystr) (w : world) :
  http_get E u timeout = Response code el ->
  requests_get E u timeout w = (Ok (code, el), tick el [EvRequest u] w).
Proof. intros H. unfold requests_get. now rewrite H. Qed.

Lemma requests_get_fails (E : env) (timeout : Z) (u : pystr) (w : world) :
  fails E timeout u ->
  exists e,
    is_RequestException e = true
    /\ requests_get E u timeout w
       = (Raise e, tick (outcome_elapsed (http_get E u timeout)) [EvRequest u] w).
Proof.
  intros H. destruct (fails_network_error E timeout u H) as (reason & el & Hget).
  unfold requests_get. rewrite Hget.
  destruct reason; eexists; (split; [|reflexivity]); reflexivity.
Qed.

Lemma trace_tick (d : Q) (evs : list event) (w : world) :
  trace (tick d evs w) = trace w ++ evs.
Proof. reflexivity. Qed.

(** ** The loop of [check_single_company] *)

Section SingleCompany.

Variables (E : env) (company cleaned : pystr) (timeout : Z) (start : Q).

Lemma single_try_urls_skip (u : pystr) (urls : list pystr) (w : world) :
  fails E timeout u ->
  single_try_urls E company cleaned timeout start (u :: urls) w
  = single_try_urls E company cleaned timeout start urls
      (tick (outcome_elapsed (http_get E u timeout)) [EvRequest u] w).
Proof.
  intros H. destruct (requests_get_fails E timeout u w H) as (e & He & Hget).
  cbn [single_try_urls]. unfold try_except, bind.
  now rewrite Hget, He.
Qed.

Lemma single_try_urls_answer (u : pystr) (urls : list pystr) (w : world)
    (code : Z) (el : Q) :
  http_get E u timeout = Response code el ->
  exists d,
    single_try_urls E company cleaned timeout start (u :: urls) w
    = (Ok d, tick el [EvRequest u] w)
    /\ original_name d = company /\ cleaned_name d = cleaned
    /\ url d = u /\ status_code d = Some code.
Proof.
  intros H. cbn [single_try_urls]. unfold try_except, bind.
  rewrite (requests_get_response E timeout code el u w H). cbn.
  eexists. split; [reflexivity|]. repeat split.
Qed.

(** The first URL that answers is the one returned, and the requests
    issued are the URLs up to it, in order. *)
Lemma single_try_urls_first (pre post : list pystr) (u : pystr)
    (code : Z) (el : Q) :
  Forall (fails E timeout) pre ->
  http_get E u timeout = Response code el ->
  forall w, exists d w',
    single_try_urls E company cleaned timeout start (pre ++ u :: post) w
    = (Ok d, w')
    /\ original_name d = company /\ cleaned_name d = cleaned
    /\ url d = u /\ status_code d = Some code
    /\ trace w' = trace w ++ map EvRequest (pre ++ [u]).
Proof.
  intros Hpre Hu. induction Hpre as [|v pre Hv _ IH]; intros w.
  - destruct (single_try_urls_answer u post w code el Hu) as (d & Hd & H).
    exists d, (tick el [EvRequest u] w).
    cbn [app]. rewrite Hd. repeat split; apply H.
  - cbn [app]. rewrite (single_try_urls_skip _ _ _ Hv).
    destruct (IH (tick (outcome_elapsed (http_get E v timeout))
                    [EvRequest v] w)) as (d & w' & Hd & H1 & H2 & H3 & H4 & H5).
    exists d, w'. rewrite Hd, H5, trace_tick, <- app_assoc.
    repeat split; assumption.
Qed.

(** When no URL answers, the entry has URL ['N/A'] and status code [0],
    and every URL was requested, in order. *)
Lemma single_try_urls_none (urls : list pystr) :
  Forall (fails E timeout) urls ->
  forall w, exists d w',
    single_try_urls E company cleaned timeout start urls w = (Ok d, w')
    /\ original_name d = company /\ cleaned_name d = cleaned
    /\ url d = str "N/A" /\ status_code d = Some 0%Z
    /\ trace w' = trace w ++ map EvRequest urls.
Proof.
  induction 1 as [|v urls Hv _ IH]; intros w.
  - eexists. exists w. cbn. rewrite app_nil_r. repeat split.
  - rewrite (single_try_urls_skip _ _ _ Hv).
    destruct (IH (tick (outcome_elapsed (http_get E v timeout))
                    [EvRequest v] w)) as (d & w' & Hd & H1 & H2 & H3 & H4 & H5).
    exists d, w'. rewrite Hd, H5, trace_tick, <- app_assoc.
    repeat split; assumption.
Qed.

(** The loop always returns an entry for the company, and what it adds
    to the log are requests. *)
Lemma single_try_urls_total (urls : list pystr) :
  forall w, exists d w' tried,
    single_try_urls E company cleaned timeout start urls w = (Ok d, w')
    /\ original_name d = company
    /\ trace w' = trace w ++ map EvRequest tried
    /\ (urls <> [] -> tried <> []).
Proof.
  induction urls as [|u urls IH]; intros w.
  - eexists. exists w, []. cbn. rewrite app_nil_r.
    repeat split. congruence.
  - destruct (http_get E u timeout) as [code el|reason el] eqn:Hget.
    + destruct (single_try_urls_answer u urls w code el Hget) as (d & Hd & H1 & _).
      exists d, (tick el [EvRequest u] w), [u].
      rewrite Hd. repeat split; [assumption | discriminate].
    + assert (Hv : fails E timeout u) by (unfold fails; now rewrite Hget).
      rewrite (single_try_urls_skip _ _ _ Hv).
      destruct (IH (tick (outcome_elapsed (http_get E u timeout))
                      [EvRequest u] w)) as (d & w' & tried & Hd & H1 & H2 & _).
      exists d, w', (u :: tried).
      rewrite Hd, H2, trace_tick, <- app_assoc.
      repeat split; [assumption | discriminate].
Qed.

End SingleCompany.

Lemma check_single_company_unfold (E : env) (timeout : Z) (start : Q)
    (company : pystr) (w : world) :
  check_single_company E timeout start company w
  = single_try_urls E company (clean_company_name company) timeout start
      (generate_website_urls E company) w.
Proof. reflexivity. Qed.

(** ** The loop of [check_website_async] *)

Lemma session_get_response (E : env) (timeout code : Z) (el : Q)
    (u : pystr) (s : loop_state) :
  http_get E u timeout = Response code el ->
  session_get E u timeout s
  = (Ok code, with_world (tick el [EvRequest u]) s).
Proof. intros H. unfold session_get, lift_world. now rewrite H. Qed.

Lemma session_get_fails (E : env) (timeout : Z) (u : pystr) (s : loop_state) :
  fails E timeout u ->
  exists e,
    is_ClientError_or_TimeoutError e = true
    /\ session_get E u timeout s
       = (Raise e,
          with_world
            (tick (outcome_elapsed (http_get E u timeout)) [EvRequest u]) s).
Proof.
  intros H. destruct (fails_network_error E timeout u H) as (reason & el & Hget).
  unfold session_get, lift_world. rewrite Hget.
  destruct reason; eexists; (split; [|reflexivity]); reflexivity.
Qed.

Section AsyncLoop.

Variables (E : env) (company cleaned : pystr) (timeout : Z) (start : Q).

Lemma async_try_urls_skip (u : pystr) (urls : list pystr) (s : loop_state) :
  fails E timeout u ->
  async_try_urls E company cleaned timeout start (u :: urls) s
  = async_try_urls E company cleaned timeout start urls
      (with_world
         (tick (outcome_elapsed (http_get E u timeout)) [EvRequest u]) s).
Proof.
  intros H. destruct (session_get_fails E timeout u s H) as (e & He & Hget).
  cbn [async_try_urls]. unfold try_except, bind.
  now rewrite Hget, He.
Qed.

Lemma async_try_urls_first (pre post : list pystr) (u : pystr)
    (code : Z) (el : Q) :
  Forall (fails E timeout) pre ->
  http_get E u timeout = Response code el ->
  forall s, exists d s',
    async_try_urls E company cleaned timeout start (pre ++ u :: post) s
    = (Ok (Some d), s')
    /\ original_name d = company /\ cleaned_name d = cleaned
    /\ url d = u /\ status_code d = Some code
    /\ trace (ls_world s')
       = trace (ls_world s) ++ map EvRequest (pre ++ [u]).
Proof.
  intros Hpre Hu. induction Hpre as [|v pre Hv _ IH]; intros s.
  - cbn [app async_try_urls]. unfold try_except, bind.
    rewrite (session_get_response E timeout code el u s Hu). cbn.
    eexists. eexists. split; [reflexivity|]. repeat split.
  - cbn [app]. rewrite (async_try_urls_skip _ _ _ Hv).
    destruct (IH (with_world
                    (tick (outcome_elapsed (http_get E v timeout))
                       [EvRequest v]) s))
      as (d & s' & Hd & H1 & H2 & H3 & H4 & H5).
    exists d, s'. rewrite Hd, H5. cbn [with_world ls_world].
    rewrite trace_tick, <- app_assoc. repeat split; assumption.
Qed.

Lemma async_try_urls_none (urls : list pystr) :
  Forall (fails E timeout) urls ->
  forall s, exists s',
    async_try_urls E company cleaned timeout start urls s = (Ok None, s')
    /\ trace (ls_world s') = trace (ls_world s) ++ map EvRequest urls.
Proof.
  induction 1 as [|v urls Hv _ IH]; intros s.
  - exists s. cbn. now rewrite app_nil_r.
  - rewrite (async_try_urls_skip _ _ _ Hv).
    destruct (IH (with_world
                    (tick (outcome_elapsed (http_get E v timeout))
                       [EvRequest v]) s)) as (s' & Hd & H5).
    exists s'. rewrite Hd, H5. cbn [with_world ls_world].
    now rewrite trace_tick, <- app_assoc.
Qed.

End AsyncLoop.

Lemma async_no_url_works_entry (company cleaned : pystr) (start : Q)
    (s : loop_state) :
  exists d,
    async_no_url_works company cleaned start s = (Ok d, s)
    /\ original_name d = company /\ cleaned_name d = cleaned
    /\ url d = str "N/A" /\ status_code d = None.
Proof.
  unfold async_no_url_works, bind, lift_world, time_time, ret.
  destruct s as [w self]. cbn. eexists. split; [reflexivity|]. repeat split.
Qed.

(** C4 (amended). [check_single_company] and the candidate loop of
    [check_website_async] request the candidate URLs in the order
    [generate_website_urls] gives them and return the first one that is
    answered, whatever the status code, with that URL and status code.  When
    no candidate answers, [check_single_company] returns URL ['N/A'] with
    status code [0], and the lines after the loop of [check_website_async]
    return URL ['N/A'] with status code [None]. *)
Theorem probe_returns_first_answer (E : env) (timeout : Z) (start : Q)
    (company : pystr) (w : world) (s : loop_state) :
  let urls := generate_website_urls E company in
  let cleaned := clean_company_name company in
  (forall pre u post code el,
     urls = pre ++ u :: post ->
     Forall (fails E timeout) pre ->
     http_get E u timeout = Response code el ->
     (exists d w',
        check_single_company E timeout start company w = (Ok d, w')
        /\ original_name d = company /\ cleaned_name d = cleaned
        /\ url d = u /\ status_code d = Some code
        /\ trace w' = trace w ++ map EvRequest (pre ++ [u]))
     /\ (exists d s',
           async_try_urls E company cleaned timeout start urls s
           = (Ok (Some d), s')
           /\ original_name d = company /\ cleaned_name d = cleaned
           /\ url d = u /\ status_code d = Some code
           /\ trace (ls_world s')
              = trace (ls_world s) ++ map EvRequest (pre ++ [u])))
  /\ (Forall (fails E timeout) urls ->
      (exists d w',
         check_single_company E timeout start company w = (Ok d, w')
         /\ original_name d = company /\ cleaned_name d = cleaned
         /\ url d = str "N/A" /\ status_code d = Some 0%Z
         /\ trace w' = trace w ++ map EvRequest urls)
      /\ (exists d s',
            async_try_urls E company cleaned timeout start urls s
            = (Ok None, s')
            /\ async_no_url_works company cleaned start s' = (Ok d, s')
            /\ original_name d = company /\ cleaned_name d = cleaned
            /\ url d = str "N/A" /\ status_code d = None
            /\ trace (ls_world s')
               = trace (ls_world s) ++ map EvRequest urls)).
Proof.
  intros urls cleaned. split.
  - intros pre u post code el Hurls Hpre Hu. split.
    + rewrite check_single_company_unfold. fold urls. rewrite Hurls.
      now apply single_try_urls_first with (el := el).
    + rewrite Hurls. now apply async_try_urls_first with (el := el).
  - intros Hall. split.
    + rewrite check_single_company_unfold. fold urls.
      now apply single_try_urls_none.
    + destruct (async_try_urls_none E company cleaned timeout start urls Hall s)
        as (s' & Hs' & Htrace).
      destruct (async_no_url_works_entry company cleaned start s')
        as (d & Hd & H).
      exists d, s'. repeat split; try assumption; apply H.
Qed.

Lemma probe_returns_first_answer_witness :
  (exists d w',
     check_single_company only_acme_net 3 0 (str "Acme Inc.") world0
     = (Ok d, w')
     /\ url d = str "https://acme.net" /\ status_code d = Some 404%Z)
  /\ (exists d w',
        check_single_company refuse_all 3 0 (str "Acme Inc.") world0
        = (Ok d, w')
        /\ url d = str "N/A" /\ status_code d = Some 0%Z).
Proof.
  split.
  - destruct (proj1 (probe_returns_first_answer only_acme_net 3 0
                       (str "Acme Inc.") world0
                       (start_state world0 default_checker))
                [str "https://www.acme.com"; str "https://acme.com";
                 str "http://www.acme.com"; str "http://acme.com"]
                (str "https://acme.net") [str "https://www.acme.org"]
                404%Z 1%Q eq_refl
                ltac:(repeat constructor) eq_refl)
      as [(d & w' & Hd & _ & _ & Hu & Hc & _) _].
    exists d, w'. repeat split; assumption.
  - destruct (proj2 (probe_returns_first_answer refuse_all 3 0
                       (str "Acme Inc.") world0
                       (start_state world0 default_checker))
                ltac:(repeat constructor))
      as [(d & w' & Hd & _ & _ & Hu & Hc & _) _].
    exists d, w'. repeat split; assumption.
Defined.

(** C4 (as stated) fails: when every candidate is refused,
    [check_single_company] returns status code [0], not [None]. *)
Lemma check_single_company_gives_zero :
  exists d w',
    check_single_company refuse_all 3 0 (str "Acme Inc.") world0 = (Ok d, w')
    /\ Forall (fails refuse_all 3) (generate_website_urls refuse_all (str "Acme Inc."))
    /\ status_code d = Some 0%Z
    /\ status_code d <> None.
Proof.
  eexists. eexists. split; [cbv; reflexivity|].
  split; [repeat constructor|]. split; [reflexivity | discriminate].
Qed.

(** ** The loops of [check_websites_sequential] *)

Section SequentialLoop.

Variables (E : env) (company cleaned : pystr) (timeout : Z).

Lemma sequential_try_urls_skip (u : pystr) (urls : list pystr)
    (results : list result_dict) (w : world) :
  fails E timeout u ->
  sequential_try_urls E company cleaned timeout (u :: urls) results w
  = sequential_try_urls E company cleaned timeout urls results
      (tick (outcome_elapsed (http_get E u timeout)) [EvRequest u] w).
Proof.
  intros H. destruct (requests_get_fails E timeout u w H) as (e & He & Hget).
  cbn [sequential_try_urls]. unfold try_except, bind.
  now rewrite Hget, He.
Qed.


(** When no URL answers, the inner loop leaves [results] as it found
    it: the company gets no entry. *)
Lemma sequential_try_urls_none (urls : list pystr)
    (results : list result_dict) :
  Forall (fails E timeout) urls ->
  forall w, exists w',
    sequential_try_urls E company cleaned timeout urls results w
    = (Ok results, w')
    /\ trace w' = trace w ++ map EvRequest urls.
Proof.
  induction 1 as [|v urls Hv _ IH]; intros w.
  - exists w. cbn. now rewrite app_nil_r.
  - rewrite (sequential_try_urls_skip _ _ _ _ Hv).
    destruct (IH (tick (outcome_elapsed (http_get E v timeout))
                    [EvRequest v] w)) as (w' & Hd & H5).
    exists w'. now rewrite Hd, H5, trace_tick, <- app_assoc.
Qed.


End SequentialLoop.

Lemma generate_website_urls_not_nil (E : env) (name : pystr) :
  generate_website_urls E name <> [].
Proof. discriminate. Qed.

(** The six candidates of a company are pairwise different, so within
    one probe no URL is requested twice. *)
Lemma generate_website_urls_NoDup (E : env) (name : pystr) :
  NoDup (generate_website_urls E name).
Proof.
  unfold generate_website_urls.
  set (n := remove_spaces (str_lower E (clean_company_name name))).
  repeat (apply NoDup_cons; [cbn [In]; intros H|]); [..|apply NoDup_nil].
  all: repeat match goal with
       | H : _ \/ _ |- _ => destruct H as [H|H]
       | H : False |- _ => destruct H
       end.
  all: try (apply (f_equal (@List.length N)) in H;
            rewrite !length_app in H; cbn in H; lia).
  all: do 2 apply app_inv_head in H; discriminate.
Qed.


(** ** The pool of [check_websites_parallel] *)

Lemma check_single_company_total (E : env) (timeout : Z) (start : Q)
    (company : pystr) (w : world) :
  exists d w' tried,
    check_single_company E timeout start company w = (Ok d, w')
    /\ original_name d = company
    /\ trace w' = trace w ++ map EvRequest tried
    /\ tried <> [].
Proof.
  rewrite check_single_company_unfold.
  destruct (single_try_urls_total E company (clean_company_name company)
              timeout start (generate_website_urls E company) w)
    as (d & w' & tried & Hd & Hn & Ht & Hne).
  exists d, w', tried. repeat split; try assumption.
  apply Hne, generate_website_urls_not_nil.
Qed.

Lemma executor_map_total (E : env) (timeout : Z) (start : Q)
    (companies : list pystr) :
  forall w, exists ds w' tried,
    executor_map (check_single_company E timeout start) companies w
    = (Ok ds, w')
    /\ map original_name ds = companies
    /\ trace w' = trace w ++ map EvRequest tried
    /\ (companies <> [] -> tried <> []).
Proof.
  induction companies as [|c companies IH]; intros w.
  - exists [], w, []. cbn. rewrite app_nil_r. repeat split. congruence.
  - cbn [executor_map]. unfold bind at 1.
    destruct (check_single_company_total E timeout start c w)
      as (d & w1 & tried1 & H1 & Hn1 & Ht1 & Hne1).
    rewrite H1. unfold bind at 1.
    destruct (IH w1) as (ds & w2 & tried2 & H2 & Hn2 & Ht2 & _).
    rewrite H2. exists (d :: ds), w2, (tried1 ++ tried2).
    cbn [ret map]. rewrite Hn1, Hn2, Ht2, Ht1, map_app, <- app_assoc.
    repeat split. intros _ Happ. apply app_eq_nil in Happ. now destruct Happ.
Qed.

(** The pooled strategy returns one entry per company, in the order of the
    input, whatever the transport answers. *)
Lemma check_websites_parallel_one_each (E : env) (companies : list pystr)
    (max_workers timeout : Z) (w : world) :
  (0 < max_workers)%Z ->
  exists ds w',
    check_websites_parallel E companies max_workers timeout w = (Ok ds, w')
    /\ map original_name ds = companies.
Proof.
  intros Hpos. unfold check_websites_parallel, bind, time_time, lift_result,
    ThreadPoolExecutor.
  destruct (max_workers <=? 0)%Z eqn:Hmw; [apply Z.leb_le in Hmw; lia|].
  destruct (executor_map_total E timeout (now w) companies w)
    as (ds & w' & tried & H & Hn & _).
  rewrite H. exists ds, w'. now split.
Qed.









(** ** The cooperative probe *)

(** [self.rate_limit()] is the call of a number: with a free slot in the
    semaphore, the probe raises [TypeError] before any request, and gives
    the slot back on its way out. *)
Lemma check_website_async_TypeError (E : env) (company : pystr)
    (s : loop_state) :
  (0 < semaphore (ls_self s))%Z ->
  check_website_async E company s
  = (Raise TypeError,
     set_semaphore (semaphore (ls_self s) - 1 + 1)%Z
       (set_semaphore (semaphore (ls_self s) - 1)%Z s)).
Proof.
  intros Hfree. apply Z.ltb_lt in Hfree.
  unfold check_website_async, bind, lift_world, time_time,
    async_with_semaphore, finally, get_self, await_call, getattr_rate_limit,
    raise.
  destruct s as [w self]. cbn [ls_world ls_self] in *.
  rewrite Hfree. reflexivity.
Qed.

(** C1. The probe does not keep its exceptions inside: on a checker as
    [__init__] builds it, with a free slot in the semaphore,
    [check_website_async] raises [TypeError] for every company and every
    transport, and no request has gone out. *)
Theorem check_website_async_raises (E : env) (company : pystr)
    (s : loop_state) :
  (0 < semaphore (ls_self s))%Z ->
  fst (check_website_async E company s) = Raise TypeError
  /\ ls_world (snd (check_website_async E company s)) = ls_world s.
Proof.
  intros Hfree. rewrite (check_website_async_TypeError E company s Hfree).
  split; reflexivity.
Qed.

Lemma check_website_async_raises_witness :
  WebsiteChecker_init default_timeout default_max_concurrent default_rate_limit
  = Ok default_checker
  /\ fst (check_website_async answer_all (str "Acme Inc.")
            (start_state world0 default_checker)) = Raise TypeError.
Proof.
  split; [reflexivity|].
  apply (check_website_async_raises answer_all (str "Acme Inc.")
           (start_state world0 default_checker)).
  reflexivity.
Defined.

(** [run_async] on a list that is not empty raises the [TypeError] of its
    first probe. *)
Lemma run_async_TypeError (E : env) (self : WebsiteChecker)
    (company : pystr) (rest : list pystr) (w : world) :
  (0 < semaphore self)%Z ->
  fst (run_async E self (company :: rest) w) = Raise TypeError.
Proof.
  intros Hfree.
  unfold run_async, bind, lift_world, time_time, check_websites_async, gather.
  cbn [ls_world ls_self map run_tasks].
  rewrite (check_website_async_TypeError E company
             {| ls_world := w; ls_self := self |} Hfree).
  destruct (run_tasks _ _) as [rs s']. reflexivity.
Qed.

(** ** The three strategies on one list *)

Lemma sequential_loop_all_fail (E : env) (timeout : Z)
    (companies : list pystr) :
  Forall (fun c => Forall (fails E timeout) (generate_website_urls E c))
    companies ->
  forall results w, exists w',
    sequential_loop E companies timeout results w = (Ok results, w').
Proof.
  induction 1 as [|c companies Hc _ IH]; intros results w.
  - exists w. reflexivity.
  - cbn [sequential_loop]. unfold bind at 1.
    unfold lift_result, WebsiteChecker_init.
    destruct (default_max_concurrent <? 0)%Z eqn:Hmax; [discriminate|].
    unfold bind at 1.
    destruct (sequential_try_urls_none E c (clean_company_name c) timeout
                (generate_website_urls E c) results Hc w) as (w1 & H1 & _).
    rewrite H1. apply IH.
Qed.

(** C3. The sequential strategy does not return one entry per company:
    whatever the list, when no candidate URL of any company answers, its
    result list is empty, whereas the pooled strategy returns one entry per
    company, in the order of the list. *)
Theorem sequential_drops_failed_companies (E : env) (companies : list pystr)
    (max_workers timeout : Z) (w : world) :
  Forall (fun c => Forall (fails E timeout) (generate_website_urls E c))
    companies ->
  (0 < max_workers)%Z ->
  fst (check_websites_sequential E companies timeout w) = Ok []
  /\ exists ds,
       fst (check_websites_parallel E companies max_workers timeout w) = Ok ds
       /\ map original_name ds = companies.
Proof.
  intros Hall Hpos. split.
  - destruct (sequential_loop_all_fail E timeout companies Hall [] w)
      as (w' & H).
    unfold check_websites_sequential, bind, time_time. now rewrite H.
  - destruct (check_websites_parallel_one_each E companies max_workers
                timeout w Hpos) as (ds & w' & H & Hn).
    exists ds. now rewrite H.
Qed.

Lemma sequential_drops_failed_companies_witness :
  fst (check_websites_sequential refuse_all [str "Acme Inc."]
         default_timeout world0) = Ok []
  /\ entries_for (str "Acme Inc.") [] = 0%nat
  /\ exists ds,
       fst (check_websites_parallel refuse_all [str "Acme Inc."]
              default_max_workers default_timeout world0) = Ok ds
       /\ map original_name ds = [str "Acme Inc."].
Proof.
  destruct (sequential_drops_failed_companies refuse_all [str "Acme Inc."]
              default_max_workers default_timeout world0
              ltac:(repeat constructor) eq_refl) as [Hseq Hpar].
  split; [exact Hseq|]. split; [reflexivity | exact Hpar].
Defined.

(** C2. The three strategies disagree on the one company "Acme Inc." with
    a transport that refuses everything: the sequential result has no entry
    for it, the pooled result maps it to [0], and the cooperative run raises
    [TypeError].  With a transport that answers everything the first two
    agree and the cooperative run still raises. *)
Theorem strategies_disagree :
  let companies := [str "Acme Inc."] in
  let sequential E :=
    fst (check_websites_sequential E companies default_timeout world0) in
  let parallel E :=
    fst (check_websites_parallel E companies default_max_workers
           default_timeout world0) in
  let cooperative E := fst (run_async E default_checker companies world0) in
  (exists seq par,
     sequential refuse_all = Ok seq
     /\ parallel refuse_all = Ok par
     /\ lookup_company (str "Acme Inc.") seq = None
     /\ lookup_company (str "Acme Inc.") par = Some (Some 0%Z)
     /\ cooperative refuse_all = Raise TypeError)
  /\ (exists seq par,
        sequential answer_all = Ok seq
        /\ parallel answer_all = Ok par
        /\ lookup_company (str "Acme Inc.") seq = Some (Some 200%Z)
        /\ lookup_company (str "Acme Inc.") par = Some (Some 200%Z)
        /\ cooperative answer_all = Raise TypeError).
Proof.
  cbv zeta.
  split; eexists; eexists;
    (split; [cbv; reflexivity|]); (split; [cbv; reflexivity|]);
    repeat split; reflexivity.
Qed.

(** * Further properties of the strategies *)

Lemma answers_true_response (E : env) (timeout : Z) (u : pystr) :
  answers E timeout u = true ->
  exists code el, http_get E u timeout = Response code el.
Proof.
  unfold answers. destruct (http_get E u timeout) as [code el|r el];
    [eauto | discriminate].
Qed.

(** What the inner loop of the sequential strategy appends: nothing when no
    URL is answered, one entry for an answered URL otherwise. *)
Lemma sequential_try_urls_appends (E : env) (company cleaned : pystr)
    (timeout : Z) (urls : list pystr) (results : list result_dict) :
  forall w, exists new w',
    sequential_try_urls E company cleaned timeout urls results w
    = (Ok (results ++ new), w')
    /\ (existsb (answers E timeout) urls = false -> new = [])
    /\ (existsb (answers E timeout) urls = true ->
        exists d, new = [d]
          /\ original_name d = company /\ cleaned_name d = cleaned
          /\ In (url d) urls
          /\ exists code el,
               http_get E (url d) timeout = Response code el
               /\ status_code d = Some code).
Proof.
  induction urls as [|u urls IH]; intros w.
  - exists [], w. cbn. rewrite app_nil_r.
    repeat split; [discriminate].
  - cbn [existsb]. destruct (answers E timeout u) eqn:Hu.
    + destruct (answers_true_response E timeout u Hu) as (code & el & Hget).
      cbn [sequential_try_urls]. unfold try_except, bind.
      rewrite (requests_get_response E timeout code el u w Hget). cbn.
      eexists. eexists. split; [reflexivity|].
      split; [discriminate|]. intros _.
      eexists. split; [reflexivity|]. cbn.
      repeat split; [now left|]. eauto.
    + rewrite (sequential_try_urls_skip E company cleaned timeout u urls
                 results w Hu).
      destruct (IH (tick (outcome_elapsed (http_get E u timeout))
                      [EvRequest u] w)) as (new & w' & Hrun & Hnone & Hsome).
      exists new, w'. split; [exact Hrun|]. cbn [orb].
      split; [exact Hnone|]. intros Hex.
      destruct (Hsome Hex) as (d & Hnew & Hn & Hcl & Hin & Hans).
      exists d. repeat split; try assumption. now right.
Qed.

Lemma sequential_loop_appends (E : env) (timeout : Z)
    (companies : list pystr) :
  forall results w, exists new w',
    sequential_loop E companies timeout results w = (Ok (results ++ new), w')
    /\ map original_name new = filter (has_answer E timeout) companies
    /\ Forall (answered_entry E timeout) new.
Proof.
  induction companies as [|c companies IH]; intros results w.
  - exists [], w. cbn. rewrite app_nil_r. repeat split. constructor.
  - cbn [sequential_loop]. unfold bind at 1.
    unfold lift_result, WebsiteChecker_init.
    destruct (default_max_concurrent <? 0)%Z eqn:Hmax; [discriminate|].
    unfold bind at 1.
    destruct (sequential_try_urls_appends E c (clean_company_name c) timeout
                (generate_website_urls E c) results w)
      as (new1 & w1 & H1 & Hnone & Hsome).
    rewrite H1.
    destruct (IH (results ++ new1) w1) as (new2 & w2 & H2 & Hnames & Hall).
    exists (new1 ++ new2), w2. rewrite H2, app_assoc.
    split; [reflexivity|]. cbn [filter].
    unfold has_answer at 1.
    destruct (existsb (answers E timeout) (generate_website_urls E c)) eqn:Hex.
    + destruct (Hsome eq_refl) as (d & -> & Hn & Hcl & Hin & Hans).
      cbn [app map]. rewrite Hn, Hnames. split; [reflexivity|].
      constructor; [|assumption].
      unfold answered_entry. rewrite Hn. repeat split; assumption.
    + rewrite (Hnone eq_refl). cbn [app]. split; assumption.
Qed.

Lemma check_websites_sequential_entries_aux (E : env)
    (companies : list pystr) (timeout : Z) (w : world) :
  exists results,
    fst (check_websites_sequential E companies timeout w) = Ok results
    /\ map original_name results = filter (has_answer E timeout) companies
    /\ Forall (answered_entry E timeout) results.
Proof.
  destruct (sequential_loop_appends E timeout companies [] w)
    as (new & w' & H & Hnames & Hall).
  exists new. unfold check_websites_sequential, bind, time_time.
  rewrite H. cbn. repeat split; assumption.
Qed.

(** X1. The sequential strategy returns one entry for each company that
    has an answered candidate URL and none for the others, in the order of
    the input; every entry carries a candidate URL of its company and the
    status code the transport gave for it. *)
Theorem check_websites_sequential_entries (E : env) (companies : list pystr)
    (timeout : Z) (w : world) :
  (exists results,
     fst (check_websites_sequential E companies timeout w) = Ok results
     /\ map original_name results = filter (has_answer E timeout) companies
     /\ Forall (answered_entry E timeout) results)
  /\ (forall results,
        fst (check_websites_sequential E companies timeout w) = Ok results ->
        (List.length results <= List.length companies)%nat).
Proof.
  split.
  - apply check_websites_sequential_entries_aux.
  - destruct (sequential_loop_appends E timeout companies [] w)
      as (new & w' & H & Hnames & _).
    unfold check_websites_sequential, bind, time_time. rewrite H. cbn.
    intros results [= <-].
    rewrite <- (length_map original_name new), Hnames.
    apply filter_length_le.
Qed.

Lemma check_websites_sequential_entries_witness :
  exists results,
    fst (check_websites_sequential only_acme_net
           [str "Acme Inc."; str "Bad News, Inc."] default_timeout world0)
    = Ok results
    /\ map original_name results = [str "Acme Inc."]
    /\ (List.length results <= 2)%nat.
Proof.
  destruct (proj1 (check_websites_sequential_entries only_acme_net
                     [str "Acme Inc."; str "Bad News, Inc."]
                     default_timeout world0))
    as (results & Hrun & Hnames & _).
  exists results. split; [exact Hrun|]. split; [exact Hnames|].
  apply (proj2 (check_websites_sequential_entries only_acme_net
                  [str "Acme Inc."; str "Bad News, Inc."]
                  default_timeout world0) results Hrun).
Defined.

(** ** The pooled strategy *)

Lemma single_try_urls_entry (E : env) (company cleaned : pystr)
    (timeout : Z) (start : Q) (urls : list pystr) :
  forall w, exists d w',
    single_try_urls E company cleaned timeout start urls w = (Ok d, w')
    /\ original_name d = company /\ cleaned_name d = cleaned
    /\ ((existsb (answers E timeout) urls = false
         /\ url d = str "N/A" /\ status_code d = Some 0%Z)
        \/ (existsb (answers E timeout) urls = true
            /\ In (url d) urls
            /\ exists code el,
                 http_get E (url d) timeout = Response code el
                 /\ status_code d = Some code)).
Proof.
  induction urls as [|u urls IH]; intros w.
  - eexists. exists w. cbn. repeat split. left. repeat split.
  - cbn [existsb]. destruct (answers E timeout u) eqn:Hu.
    + destruct (answers_true_response E timeout u Hu) as (code & el & Hget).
      cbn [single_try_urls]. unfold try_except, bind.
      rewrite (requests_get_response E timeout code el u w Hget). cbn.
      eexists. eexists. split; [reflexivity|]. cbn.
      repeat split. right. repeat split; [now left|]. eauto.
    + rewrite (single_try_urls_skip E company cleaned timeout start u urls
                 w Hu).
      destruct (IH (tick (outcome_elapsed (http_get E u timeout))
                      [EvRequest u] w))
        as (d & w' & Hrun & Hn & Hcl & Hcase).
      exists d, w'. repeat split; try assumption. cbn [orb].
      destruct Hcase as [(Hex & Hurl & Hc)|(Hex & Hin & Hans)].
      * left. repeat split; assumption.
      * right. repeat split; [assumption | now right | assumption].
Qed.

Lemma executor_map_entries (E : env) (timeout : Z) (start : Q)
    (companies : list pystr) :
  forall w, exists ds w',
    executor_map (check_single_company E timeout start) companies w
    = (Ok ds, w')
    /\ map original_name ds = companies
    /\ Forall (fun d => given_up_entry E timeout d
                        \/ answered_entry E timeout d) ds.
Proof.
  induction companies as [|c companies IH]; intros w.
  - exists [], w. cbn. repeat split. constructor.
  - cbn [executor_map]. unfold bind at 1.
    rewrite check_single_company_unfold.
    destruct (single_try_urls_entry E c (clean_company_name c) timeout start
                (generate_website_urls E c) w)
      as (d & w1 & H1 & Hn & Hcl & Hcase).
    rewrite H1. unfold bind at 1.
    destruct (IH w1) as (ds & w2 & H2 & Hnames & Hall).
    rewrite H2. exists (d :: ds), w2. cbn [ret map].
    rewrite Hn, Hnames. repeat split.
    constructor; [|assumption].
    unfold given_up_entry, answered_entry, has_answer. rewrite Hn, Hcl.
    destruct Hcase as [(Hex & Hurl & Hc)|(Hex & Hin & Hans)].
    + left. repeat split; assumption.
    + right. repeat split; assumption.
Qed.

Lemma check_websites_parallel_entries_aux (E : env)
    (companies : list pystr) (max_workers timeout : Z) (w : world) :
  (0 < max_workers)%Z ->
  exists ds,
    fst (check_websites_parallel E companies max_workers timeout w) = Ok ds
    /\ map original_name ds = companies
    /\ Forall (fun d => given_up_entry E timeout d
                        \/ answered_entry E timeout d) ds.
Proof.
  intros Hmw.
  unfold check_websites_parallel, bind, time_time, lift_result,
    ThreadPoolExecutor.
  destruct (max_workers <=? 0)%Z eqn:Hle; [apply Z.leb_le in Hle; lia|].
  destruct (executor_map_entries E timeout (now w) companies w)
    as (ds & w' & H & Hnames & Hall).
  rewrite H. exists ds. repeat split; assumption.
Qed.

(** X2. With a positive pool size the pooled strategy returns exactly one
    entry per company, in the order of the input, and each entry is either
    the give-up entry (URL ['N/A'], status code [0]) of a company none of
    whose candidates is answered, or carries a candidate URL of its company
    and the status code the transport gave for it; with a pool size that is
    not positive it raises [ValueError] before any request. *)
Theorem check_websites_parallel_entries (E : env) (companies : list pystr)
    (max_workers timeout : Z) (w : world) :
  ((0 < max_workers)%Z ->
   exists ds,
     fst (check_websites_parallel E companies max_workers timeout w) = Ok ds
     /\ map original_name ds = companies
     /\ Forall (fun d => given_up_entry E timeout d
                         \/ answered_entry E timeout d) ds)
  /\ ((max_workers <= 0)%Z ->
      check_websites_parallel E companies max_workers timeout w
      = (Raise ValueError, w)).
Proof.
  split; intros Hmw.
  - now apply check_websites_parallel_entries_aux.
  - unfold check_websites_parallel, bind, time_time, lift_result,
      ThreadPoolExecutor.
    apply Z.leb_le in Hmw. now rewrite Hmw.
Qed.

Lemma check_websites_parallel_entries_witness :
  (exists ds,
     fst (check_websites_parallel only_acme_net
            [str "Acme Inc."; str "Bad News, Inc."]
            default_max_workers default_timeout world0) = Ok ds
     /\ map original_name ds = [str "Acme Inc."; str "Bad News, Inc."])
  /\ check_websites_parallel only_acme_net [str "Acme Inc."] 0
       default_timeout world0 = (Raise ValueError, world0).
Proof.
  split.
  - destruct (proj1 (check_websites_parallel_entries only_acme_net
                       [str "Acme Inc."; str "Bad News, Inc."]
                       default_max_workers default_timeout world0) eq_refl)
      as (ds & Hds & Hnames & _).
    exists ds. split; assumption.
  - apply (proj2 (check_websites_parallel_entries only_acme_net
                    [str "Acme Inc."] 0 default_timeout world0)).
    discriminate.
Defined.

(** ** The strategies followed by [analyze_performance] *)

Lemma answered_entry_integer (E : env) (timeout : Z) (d : result_dict) :
  answered_entry E timeout d -> status_code d <> None.
Proof. intros (_ & _ & code & el & _ & H). rewrite H. discriminate. Qed.

Lemma given_up_entry_integer (E : env) (timeout : Z) (d : result_dict) :
  given_up_entry E timeout d -> status_code d <> None.
Proof. intros (_ & _ & _ & H). rewrite H. discriminate. Qed.

Lemma analyze_performance_total (results : list result_dict)
    (m : performance_metrics) :
  analyze_performance results = Ok m ->
  total_companies m = List.length results
  /\ successful_checks m
     = Z.of_nat (List.length
         (filter (fun d => positive_status (status_code d)) results)).
Proof.
  unfold analyze_performance.
  destruct (count_positive (map status_code results)) as [n| |] eqn:Hn;
    cbn [rbind]; try discriminate.
  apply count_positive_value in Hn.
  repeat match goal with
  | |- context [rbind ?r _] => destruct r; cbn [rbind]; try discriminate
  end.
  intros [= <-]. cbn. split; [reflexivity|].
  rewrite Hn. clear. f_equal.
  induction results as [|d results IH]; cbn; [reflexivity|].
  destruct (positive_status (status_code d)); cbn; now rewrite IH.
Qed.

Lemma analyze_after_sequential_aux (E : env) (companies : list pystr)
    (timeout : Z) (w : world) :
  exists results,
    fst (check_websites_sequential E companies timeout w) = Ok results
    /\ (existsb (has_answer E timeout) companies = false ->
        analyze_performance results = Raise ZeroDivisionError)
    /\ (existsb (has_answer E timeout) companies = true ->
        exists m, analyze_performance results = Ok m).
Proof.
  destruct (check_websites_sequential_entries_aux E companies timeout w)
    as (results & Hrun & Hnames & Hall).
  exists results. split; [exact Hrun|]. split; intros Hex.
  - assert (Hnil : results = []).
    { apply map_eq_nil with (f := original_name). rewrite Hnames.
      clear - Hex. induction companies as [|c cs IH]; [reflexivity|].
      cbn [existsb filter] in *.
      apply orb_false_iff in Hex. destruct Hex as [-> Hcs].
      now apply IH. }
    subst results. reflexivity.
  - assert (Hne : results <> []).
    { intros ->. cbn in Hnames. clear - Hex Hnames.
      induction companies as [|c cs IH]; cbn [existsb filter] in *;
        [discriminate Hex|].
      destruct (has_answer E timeout c); [discriminate Hnames|].
      now apply IH. }
    apply (analyze_performance_returns (results := results) Hne).
    eapply Forall_impl; [|exact Hall].
    intros d. apply answered_entry_integer.
Qed.

(** X3. After the sequential strategy, [analyze_performance] raises
    [ZeroDivisionError] when no company has an answered candidate URL (the
    empty list of companies included), and otherwise returns a summary
    whose total is the number of companies with an answered candidate, not
    the number of companies asked for. *)
Theorem analyze_after_sequential (E : env) (companies : list pystr)
    (timeout : Z) (w : world) :
  exists results,
    fst (check_websites_sequential E companies timeout w) = Ok results
    /\ (existsb (has_answer E timeout) companies = false ->
        analyze_performance results = Raise ZeroDivisionError)
    /\ (existsb (has_answer E timeout) companies = true ->
        exists m,
          analyze_performance results = Ok m
          /\ total_companies m
             = List.length (filter (has_answer E timeout) companies)).
Proof.
  destruct (check_websites_sequential_entries_aux E companies timeout w)
    as (results & Hrun & Hnames & Hall).
  exists results. split; [exact Hrun|]. split; intros Hex.
  - assert (Hnil : results = []).
    { apply map_eq_nil with (f := original_name). rewrite Hnames.
      clear - Hex. induction companies as [|c cs IH]; [reflexivity|].
      cbn [existsb filter] in *.
      apply orb_false_iff in Hex. destruct Hex as [-> Hcs].
      now apply IH. }
    subst results. reflexivity.
  - assert (Hne : results <> []).
    { intros ->. cbn in Hnames. clear - Hex Hnames.
      induction companies as [|c cs IH]; cbn [existsb filter] in *;
        [discriminate Hex|].
      destruct (has_answer E timeout c); [discriminate Hnames|].
      now apply IH. }
    destruct (analyze_performance_returns (results := results) Hne)
      as [m Hm].
    { eapply Forall_impl; [|exact Hall].
      intros d. apply answered_entry_integer. }
    exists m. split; [exact Hm|].
    destruct (analyze_performance_total results m Hm) as [-> _].
    now rewrite <- Hnames, length_map.
Qed.

Lemma analyze_after_sequential_witness :
  (exists results,
     fst (check_websites_sequential refuse_all [str "Acme Inc."]
            default_timeout world0) = Ok results
     /\ analyze_performance results = Raise ZeroDivisionError)
  /\ (exists results m,
        fst (check_websites_sequential only_acme_net
               [str "Acme Inc."; str "Bad News, Inc."]
               default_timeout world0) = Ok results
        /\ analyze_performance results = Ok m
        /\ total_companies m = 1%nat).
Proof.
  split.
  - destruct (analyze_after_sequential refuse_all [str "Acme Inc."]
                default_timeout world0) as (results & Hrun & Hnone & _).
    exists results. split; [exact Hrun|]. apply Hnone. reflexivity.
  - destruct (analyze_after_sequential only_acme_net
                [str "Acme Inc."; str "Bad News, Inc."]
                default_timeout world0) as (results & Hrun & _ & Hsome).
    destruct (Hsome eq_refl) as (m & Hm & Htotal).
    exists results, m. repeat split; assumption.
Defined.


Lemma parallel_entries_integer (E : env) (timeout : Z)
    (ds : list result_dict) :
  Forall (fun d => given_up_entry E timeout d \/ answered_entry E timeout d)
    ds ->
  Forall (fun d => status_code d <> None) ds.
Proof.
  intros H. eapply Forall_impl; [|exact H].
  intros d [Hd|Hd];
    [eapply given_up_entry_integer | eapply answered_entry_integer];
    eassumption.
Qed.

Lemma analyze_after_parallel_aux (E : env) (companies : list pystr)
    (max_workers timeout : Z) (w : world) :
  companies <> [] ->
  (0 < max_workers)%Z ->
  exists ds m,
    fst (check_websites_parallel E companies max_workers timeout w) = Ok ds
    /\ analyze_performance ds = Ok m.
Proof.
  intros Hne Hmw.
  destruct (check_websites_parallel_entries_aux E companies max_workers
              timeout w Hmw) as (ds & Hrun & Hnames & Hall).
  assert (Hds : ds <> []).
  { intros ->. apply Hne. now rewrite <- Hnames. }
  destruct (analyze_performance_returns (results := ds) Hds
              (parallel_entries_integer E timeout ds Hall)) as [m Hm].
  exists ds, m. split; assumption.
Qed.

(** X4. After the pooled strategy on a list of companies that is not
    empty, [analyze_performance] always returns a summary, and its total is
    the number of companies; refused companies are counted, with their
    status code [0], as checks that did not succeed. *)
Theorem analyze_after_parallel (E : env) (companies : list pystr)
    (max_workers timeout : Z) (w : world) :
  companies <> [] ->
  (0 < max_workers)%Z ->
  exists ds m,
    fst (check_websites_parallel E companies max_workers timeout w) = Ok ds
    /\ analyze_performance ds = Ok m
    /\ total_companies m = List.length companies
    /\ successful_checks m
       = Z.of_nat (List.length
           (filter (fun d => positive_status (status_code d)) ds))
    /\ (forall d, In d ds -> given_up_entry E timeout d ->
          positive_status (status_code d) = false).
Proof.
  intros Hne Hmw.
  destruct (check_websites_parallel_entries_aux E companies max_workers
              timeout w Hmw) as (ds & Hrun & Hnames & Hall).
  assert (Hds : ds <> []).
  { intros ->. apply Hne. now rewrite <- Hnames. }
  destruct (analyze_performance_returns (results := ds) Hds
              (parallel_entries_integer E timeout ds Hall)) as [m Hm].
  destruct (analyze_performance_total ds m Hm) as [Htotal Hsucc].
  exists ds, m. split; [exact Hrun|]. split; [exact Hm|].
  split; [now rewrite Htotal, <- Hnames, length_map|].
  split; [exact Hsucc|].
  intros d _ (_ & _ & _ & Hc). now rewrite Hc.
Qed.

Lemma analyze_after_parallel_witness :
  exists ds m,
    fst (check_websites_parallel only_acme_net
           [str "Acme Inc."; str "Bad News, Inc."]
           default_max_workers default_timeout world0) = Ok ds
    /\ analyze_performance ds = Ok m
    /\ total_companies m = 2%nat.
Proof.
  destruct (analyze_after_parallel only_acme_net
              [str "Acme Inc."; str "Bad News, Inc."]
              default_max_workers default_timeout world0
              ltac:(discriminate) eq_refl)
    as (ds & m & Hrun & Hm & Htotal & _).
  exists ds, m. repeat split; assumption.
Defined.

Lemma filter_positive_all (ds : list result_dict) :
  Forall (fun d => positive_status (status_code d) = true) ds ->
  filter (fun d => positive_status (status_code d)) ds = ds.
Proof. apply (filter_all_true (fun d => positive_status (status_code d))). Qed.

(** X5. When the transport only answers with positive status codes, as
    HTTP does, a summary of a sequential run reports every check as
    successful: the companies that were not reached are not in the list. *)
Theorem sequential_reports_only_successes (E : env)
    (companies : list pystr) (timeout : Z) (w : world)
    (results : list result_dict) (m : performance_metrics) :
  (forall u code el, http_get E u timeout = Response code el -> (0 < code)%Z) ->
  fst (check_websites_sequential E companies timeout w) = Ok results ->
  analyze_performance results = Ok m ->
  successful_checks m = Z.of_nat (total_companies m).
Proof.
  intros Hpos Hrun Hm.
  destruct (check_websites_sequential_entries_aux E companies timeout w)
    as (results' & Hrun' & _ & Hall).
  rewrite Hrun in Hrun'. injection Hrun' as <-.
  destruct (analyze_performance_total results m Hm) as [-> ->].
  rewrite filter_positive_all; [reflexivity|].
  eapply Forall_impl; [|exact Hall].
  intros d (_ & _ & code & el & Hget & Hc). rewrite Hc. cbn.
  apply Z.ltb_lt. eapply Hpos. exact Hget.
Qed.

Lemma sequential_reports_only_successes_witness :
  exists results m,
    fst (check_websites_sequential only_acme_net
           [str "Acme Inc."; str "Bad News, Inc."]
           default_timeout world0) = Ok results
    /\ analyze_performance results = Ok m
    /\ successful_checks m = Z.of_nat (total_companies m).
Proof.
  eexists. eexists.
  split; [cbv; reflexivity|]. split; [cbv; reflexivity|].
  eapply (sequential_reports_only_successes only_acme_net
            [str "Acme Inc."; str "Bad News, Inc."] default_timeout world0).
  - intros u code el H. unfold only_acme_net, http_get in H.
    destruct (pystr_eqb u (str "https://acme.net"));
      [injection H as <- _; reflexivity | discriminate].
  - cbv; reflexivity.
  - cbv; reflexivity.
Defined.

(** ** The cooperative run *)

Lemma check_website_async_parked (E : env) (company : pystr)
    (s : loop_state) :
  (semaphore (ls_self s) <= 0)%Z ->
  check_website_async E company s = (Blocked, s).
Proof.
  intros Hle.
  unfold check_website_async, bind, lift_world, time_time,
    async_with_semaphore.
  destruct s as [w self]. cbn [ls_world ls_self] in *.
  destruct (0 <? semaphore self)%Z eqn:Hlt;
    [apply Z.ltb_lt in Hlt; lia | reflexivity].
Qed.

Lemma run_tasks_parked (E : env) (companies : list pystr) (s : loop_state) :
  (semaphore (ls_self s) <= 0)%Z ->
  run_tasks (map (check_website_async E) companies) s
  = (map (fun _ => Blocked) companies, s).
Proof.
  intros Hle. induction companies as [|c companies IH];
    cbn [map run_tasks]; [reflexivity|].
  rewrite (check_website_async_parked E c s Hle), IH. reflexivity.
Qed.

(** X8. [run_async] returns the empty list for an empty list of companies
    and, on a checker with a free semaphore slot, raises [TypeError] for
    every list that is not empty, whatever the transport would answer. *)
Theorem run_async_outcome (E : env) (self : WebsiteChecker)
    (companies : list pystr) (w : world) :
  (companies = [] -> run_async E self companies w = (Ok [], w))
  /\ (companies <> [] -> (0 < semaphore self)%Z ->
      fst (run_async E self companies w) = Raise TypeError).
Proof.
  split.
  - intros ->. reflexivity.
  - intros Hne Hfree. destruct companies as [|c rest]; [congruence|].
    now apply run_async_TypeError.
Qed.

Lemma run_async_outcome_witness :
  run_async answer_all default_checker [] world0 = (Ok [], world0)
  /\ fst (run_async answer_all default_checker
            [str "Acme Inc."; str "Bad News, Inc."] world0)
     = Raise TypeError.
Proof.
  split.
  - apply (proj1 (run_async_outcome answer_all default_checker [] world0)).
    reflexivity.
  - apply (proj2 (run_async_outcome answer_all default_checker
                    [str "Acme Inc."; str "Bad News, Inc."] world0));
      [discriminate | reflexivity].
Defined.

Lemma first_raise_parked {A B} (l : list B) :
  first_raise (map (fun _ => @Blocked A) l) = None.
Proof. induction l as [|b l IH]; [reflexivity | exact IH]. Qed.

(** X9. A checker built with [max_concurrent = 0] has no semaphore slot to
    give: every probe of a run parks on the semaphore, so [run_async] on a
    list that is not empty never returns, and no request goes out. *)
Theorem run_async_without_slots (E : env) (self : WebsiteChecker)
    (companies : list pystr) (w : world) :
  companies <> [] ->
  (semaphore self <= 0)%Z ->
  run_async E self companies w = (Blocked, w).
Proof.
  intros Hne Hle.
  unfold run_async, bind, lift_world, time_time, check_websites_async, gather.
  cbn [ls_world ls_self].
  rewrite (run_tasks_parked E companies {| ls_world := w; ls_self := self |}
             Hle).
  rewrite first_raise_parked.
  destruct companies as [|c rest]; [congruence|]. reflexivity.
Qed.

Lemma run_async_without_slots_witness :
  exists self,
    WebsiteChecker_init default_timeout 0 default_rate_limit = Ok self
    /\ run_async answer_all self [str "Acme Inc."] world0 = (Blocked, world0).
Proof.
  eexists. split; [reflexivity|].
  apply run_async_without_slots; [discriminate|].
  cbn. discriminate.
Defined.

(** X10. Whatever state it starts in, [check_website_async] ends in that
    very state: the semaphore slot it took is given back, no request has
    gone out and the clock has not moved. *)
Theorem check_website_async_no_effect (E : env) (company : pystr)
    (s : loop_state) :
  snd (check_website_async E company s) = s.
Proof.
  destruct (Z_lt_le_dec 0 (semaphore (ls_self s))) as [Hfree|Hnone].
  - rewrite (check_website_async_TypeError E company s Hfree).
    destruct s as [w [to mc rl sem last]]. cbn. unfold set_semaphore. cbn.
    do 2 f_equal. lia.
  - now rewrite (check_website_async_parked E company s Hnone).
Qed.

(** ** [main] *)

Lemma existsb_has_answer_filter (E : env) (timeout : Z)
    (companies : list pystr) :
  existsb (has_answer E timeout) companies = true -> companies <> [].
Proof. destruct companies; [discriminate | discriminate]. Qed.

(** X11. [main] never runs to its end.  When no company has an answered
    candidate URL (an empty [companies.txt] included) it stops in the
    sequential pass, with the [ZeroDivisionError] of [analyze_performance]
    on an empty result list; otherwise the sequential and the pooled pass
    complete and it stops in the cooperative pass with the [TypeError] of
    [run_async]. *)
Theorem main_always_raises (E : env) (companies : list pystr) (w : world) :
  fst (main E companies w)
  = if existsb (has_answer E default_timeout) companies
    then Raise TypeError
    else Raise ZeroDivisionError.
Proof.
  unfold main, lift_result, WebsiteChecker_init. unfold bind at 1.
  cbn [Z.ltb Z.compare]. cbn [main_loop].
  (* the sequential pass *)
  unfold bind at 1. unfold main_step at 1. unfold bind at 1, time_time at 1.
  unfold bind at 1.
  destruct (analyze_after_sequential_aux E companies default_timeout w)
    as (results & Hrun & Hnone & Hsome).
  destruct (check_websites_sequential E companies default_timeout w)
    as [r1 w1] eqn:Hseq. cbn [fst] in Hrun. subst r1.
  unfold bind at 1, time_time at 1, lift_result at 1.
  destruct (existsb (has_answer E default_timeout) companies) eqn:Hex.
  - destruct (Hsome eq_refl) as (m & Hm). rewrite Hm.
    pose proof (existsb_has_answer_filter E default_timeout companies Hex)
      as Hne.
    (* the pooled pass *)
    unfold bind at 1. unfold main_step at 1. unfold bind at 1, time_time at 1.
    unfold bind at 1.
    destruct (analyze_after_parallel_aux E companies default_max_workers
                default_timeout w1 Hne eq_refl) as (ds & m' & Hpar & Hm').
    destruct (check_websites_parallel E companies default_max_workers
                default_timeout w1) as [r2 w2] eqn:Hpool.
    cbn [fst] in Hpar. subst r2.
    unfold bind at 1, time_time at 1, lift_result at 1. rewrite Hm'.
    (* the cooperative pass *)
    unfold bind at 1. unfold main_step at 1. unfold bind at 1, time_time at 1.
    unfold bind at 1.
    destruct companies as [|c rest]; [congruence|].
    pose proof (run_async_TypeError E
                  {| timeout := 3; max_concurrent := 50;
                     rate_limit := default_rate_limit; semaphore := 50;
                     last_request_time := 0 |} c rest w2 eq_refl) as Hasync.
    destruct (run_async E _ (c :: rest) w2) as [r3 w3].
    cbn [fst] in Hasync. subst r3. reflexivity.
  - rewrite (Hnone eq_refl). reflexivity.
Qed.

(** * Further properties of the name normaliser *)

Lemma join_words_spaces (ws : list pystr) :
  Forall word ws ->
  forall c, In c (join [SPACE] ws) -> isspace c = true -> c = SPACE.
Proof.
  induction 1 as [|w ws [_ Hw] _ IH]; intros c Hin Hc; [contradiction|].
  cbn [join] in Hin. destruct ws as [|w' ws].
  - rewrite Forall_forall in Hw. specialize (Hw c Hin).
    unfold nonspace in Hw. congruence.
  - apply in_app_or in Hin. destruct Hin as [Hin|Hin].
    + rewrite Forall_forall in Hw. specialize (Hw c Hin).
      unfold nonspace in Hw. congruence.
    + destruct Hin as [Heq|Hin]; [now symmetry | now apply IH].
Qed.

(** X12. A cleaned name is in normal form: it is a list of words, none
    empty and none with white space in it, joined by single spaces (so it
    neither starts nor ends with white space and has no two separators in a
    row); the only white-space character in it is U+0020; and it holds none
    of the punctuation characters that are deleted. *)
Theorem clean_company_name_normal_form (s : pystr) :
  (exists ws, Forall word ws /\ clean_company_name s = join [SPACE] ws)
  /\ (forall c, In c (clean_company_name s) -> isspace c = true -> c = SPACE)
  /\ (forall c, In c (clean_company_name s) -> mem c punctuation = false)
  /\ split (clean_company_name s)
     = split (translate_delete punctuation
                (strip_suffixes (strip strip_set s))).
Proof.
  assert (Hwords : Forall word
            (split (translate_delete punctuation
                      (strip_suffixes (strip strip_set s)))))
    by (apply split_aux_words; constructor).
  split; [eexists; split; [exact Hwords | reflexivity]|].
  split; [apply join_words_spaces; exact Hwords|].
  split.
  - intros c Hin. pose proof (clean_company_name_kept s) as Hk.
    rewrite Forall_forall in Hk. specialize (Hk c Hin).
    unfold kept in Hk. now apply negb_true_iff in Hk.
  - unfold clean_company_name. now apply split_join.
Qed.

Lemma clean_company_name_normal_form_witness :
  mem 78 punctuation = false /\ 32 = SPACE.
Proof.
  destruct (clean_company_name_normal_form (str "  Bad   News,  Inc.  "))
    as (_ & Hspace & Hpunct & _).
  split.
  - apply (Hpunct 78). cbv. tauto.
  - apply (Hspace 32); [cbv; tauto | reflexivity].
Defined.

(** ** Cleaning does not lengthen a name *)

Lemma drop_while_length (f : N -> bool) (s : pystr) :
  (List.length (drop_while f s) <= List.length s)%nat.
Proof.
  induction s as [|c s IH]; cbn; [lia|].
  destruct (f c); cbn; lia.
Qed.

Lemma strip_length (chars : list N) (s : pystr) :
  (List.length (strip chars s) <= List.length s)%nat.
Proof.
  unfold strip, rstrip, lstrip. rewrite length_rev.
  etransitivity; [apply drop_while_length|]. rewrite length_rev.
  apply drop_while_length.
Qed.

Lemma ci_prefix_length (w s t : pystr) :
  ci_prefix w s = Some t -> (List.length t <= List.length s)%nat.
Proof.
  revert s. induction w as [|p w IH]; intros s; cbn.
  - intros [= ->]. lia.
  - destruct s as [|c s]; [discriminate|].
    destruct (ci_literal p c); [|discriminate].
    intros H. apply IH in H. cbn. lia.
Qed.

Lemma suffix_sub_length (p : suffix_pattern) (s : pystr) :
  (List.length (suffix_sub p s) <= List.length s)%nat.
Proof.
  unfold suffix_sub.
  assert (Hs : List.length s = List.length (rev s))
    by (now rewrite length_rev).
  destruct (rev s) as [|c0 r]; cbn [List.length] in Hs.
  - destruct (ci_prefix (rev (sp_word p)) []) as [[|c r3]|] eqn:Hpre;
      try lia.
    apply ci_prefix_length in Hpre. cbn in Hpre. lia.
  - destruct (c0 =? NEWLINE).
    + (* a final newline is kept *)
      set (r2 := match r with
                 | c :: r' => if sp_optional_dot p && (c =? DOT) then r' else r
                 | [] => r
                 end).
      assert (Hr2 : (List.length r2 <= List.length r)%nat).
      { unfold r2. destruct r as [|c r']; [lia|].
        destruct (sp_optional_dot p && (c =? DOT)); cbn; lia. }
      destruct (ci_prefix (rev (sp_word p)) r2) as [[|c r3]|] eqn:Hpre;
        try lia.
      apply ci_prefix_length in Hpre. cbn in Hpre.
      destruct (isspace c); [|lia].
      rewrite length_app, length_rev. cbn.
      pose proof (drop_while_length isspace r3). lia.
    + set (r2 := if sp_optional_dot p && (c0 =? DOT) then r else c0 :: r).
      assert (Hr2 : (List.length r2 <= S (List.length r))%nat).
      { unfold r2. destruct (sp_optional_dot p && (c0 =? DOT)); cbn; lia. }
      destruct (ci_prefix (rev (sp_word p)) r2) as [[|c r3]|] eqn:Hpre;
        try lia.
      apply ci_prefix_length in Hpre. cbn in Hpre.
      destruct (isspace c); [|lia].
      rewrite length_app, length_rev. cbn.
      pose proof (drop_while_length isspace r3). lia.
Qed.

Lemma strip_suffixes_length (s : pystr) :
  (List.length (strip_suffixes s) <= List.length s)%nat.
Proof.
  unfold strip_suffixes. generalize suffixes. intros ps. revert s.
  induction ps as [|p ps IH]; intros s; cbn; [lia|].
  etransitivity; [apply IH | apply suffix_sub_length].
Qed.

Lemma join_split_aux_length (s : pystr) :
  forall cur,
    (List.length (join [SPACE] (split_aux cur s))
     <= List.length cur + List.length s)%nat.
Proof.
  induction s as [|c s IH]; intros cur; cbn [split_aux].
  - destruct cur; cbn; [lia|]. rewrite length_app, length_rev. cbn. lia.
  - destruct (isspace c).
    + destruct cur as [|a cur].
      * specialize (IH []). cbn in *. lia.
      * specialize (IH []). cbn [join].
        destruct (split_aux [] s) as [|w ws] eqn:Hsp.
        -- rewrite length_rev. cbn. lia.
        -- rewrite !length_app, length_rev. cbn [List.length] in *. lia.
    + specialize (IH (c :: cur)). cbn [List.length] in *. lia.
Qed.

(** X13. Cleaning never lengthens a name: every step removes characters
    or replaces a run of white space by one space. *)
Theorem clean_company_name_length (s : pystr) :
  (List.length (clean_company_name s) <= List.length s)%nat.
Proof.
  unfold clean_company_name, split.
  etransitivity; [apply join_split_aux_length|]. cbn [List.length plus].
  unfold translate_delete.
  etransitivity; [apply filter_length_le|].
  etransitivity; [apply strip_suffixes_length | apply strip_length].
Qed.

(** ** A trailing Ltd in any letter case *)

(** X14. A trailing "Ltd" or "Ltd." is removed whatever the case of its
    letters and whatever white-space character stands before it, together
    with all the white space in front of it: what is left of the name is
    the part before, stripped of white space at its end. *)
Theorem strip_suffixes_ltd_any_case (p : pystr) (sp l t d : N) :
  isspace sp = true ->
  In l (str "lL") -> In t (str "tT") -> In d (str "dD") ->
  strip_suffixes (p ++ [sp; l; t; d]) = rstrip_space p
  /\ strip_suffixes (p ++ [sp; l; t; d; DOT]) = rstrip_space p.
Proof.
  intros Hsp Hl Ht Hd. cbn in Hl, Ht, Hd.
  destruct Hl as [<-|[<-|[]]]; destruct Ht as [<-|[<-|[]]];
    destruct Hd as [<-|[<-|[]]];
    (split;
     unfold strip_suffixes, suffixes; cbn [fold_left];
     unfold suffix_sub at 6; rewrite rev_app_distr; cbn;
     unfold suffix_sub at 5; rewrite rev_app_distr; cbn;
     unfold suffix_sub at 4; rewrite rev_app_distr; cbn;
     unfold suffix_sub at 3; rewrite rev_app_distr; cbn;
     unfold suffix_sub at 2; rewrite rev_app_distr; cbn;
     unfold suffix_sub; rewrite rev_app_distr; cbn;
     rewrite Hsp; unfold rstrip_space; now rewrite app_nil_r).
Qed.

Lemma strip_suffixes_ltd_any_case_witness :
  strip_suffixes (str "Acme" ++ [9; 76; 84; 68]) = str "Acme"
  /\ strip_suffixes (str "Acme  " ++ [160; 108; 84; 100; DOT]) = str "Acme".
Proof.
  split.
  - apply (proj1 (strip_suffixes_ltd_any_case (str "Acme") 9 76 84 68
                    eq_refl ltac:(cbn; tauto) ltac:(cbn; tauto)
                    ltac:(cbn; tauto))).
  - apply (proj2 (strip_suffixes_ltd_any_case (str "Acme  ") 160 108 84 100
                    eq_refl ltac:(cbn; tauto) ltac:(cbn; tauto)
                    ltac:(cbn; tauto))).
Defined.

(** ** The cache of [clean_company_name] *)

Lemma pystr_eqb_refl (a : pystr) : pystr_eqb a a = true.
Proof. unfold pystr_eqb. destruct (list_eq_dec N.eq_dec a a); congruence. Qed.

Lemma cache_remove_length (name : pystr) (c : cache) (v : pystr) :
  cache_find name c = Some v ->
  (S (List.length (cache_remove name c)) <= List.length c)%nat.
Proof.
  induction c as [|[k v'] c IH]; [discriminate|].
  unfold cache_remove in *. cbn [cache_find filter fst List.length].
  destruct (pystr_eqb k name) eqn:Hk; cbn [negb List.length].
  - intros _. apply le_n_S, filter_length_le.
  - intros H. apply le_n_S, IH, H.
Qed.

Lemma cached_length (name : pystr) (c : cache) :
  (List.length c <= maxsize)%nat ->
  (List.length (snd (clean_company_name_cached name c)) <= maxsize)%nat.
Proof.
  intros Hc. unfold clean_company_name_cached.
  destruct (cache_find name c) as [v|] eqn:Hf; cbn [snd].
  - pose proof (cache_remove_length name c v Hf). cbn [List.length]. lia.
  - rewrite length_firstn. lia.
Qed.

Lemma warm_cache_invariant (calls : list pystr) :
  forall c, (List.length c <= maxsize)%nat -> cache_sound c ->
    (List.length
       (fold_left (fun c name => snd (clean_company_name_cached name c))
          calls c) <= maxsize)%nat
    /\ cache_sound
         (fold_left (fun c name => snd (clean_company_name_cached name c))
            calls c).
Proof.
  induction calls as [|n calls IH]; intros c Hlen Hsound; cbn [fold_left].
  - now split.
  - apply IH; [now apply cached_length | now apply cached_keeps_sound].
Qed.

(** X15. The cache of [clean_company_name] stays within its 1000 entries
    whatever calls are made, and the name of the last call is in it with the
    string the body computes: calling again with that name is a hit that
    returns the same string. *)
Theorem cache_bounded_and_hit (calls : list pystr) (name : pystr) :
  let c := snd (clean_company_name_cached name (warm_cache calls)) in
  (List.length (warm_cache calls) <= 1000)%nat
  /\ (List.length c <= 1000)%nat
  /\ cache_find name c = Some (clean_company_name name)
  /\ fst (clean_company_name_cached name c) = clean_company_name name.
Proof.
  cbv zeta.
  destruct (warm_cache_invariant calls []) as [Hlen Hsound];
    [cbn; lia | constructor |].
  fold (warm_cache calls) in Hlen, Hsound.
  change 1000%nat with maxsize.
  split; [exact Hlen|]. split; [now apply cached_length|].
  assert (Hfind : cache_find name
                    (snd (clean_company_name_cached name (warm_cache calls)))
                  = Some (clean_company_name name)).
  { unfold clean_company_name_cached.
    destruct (cache_find name (warm_cache calls)) as [v|] eqn:Hf; cbn [snd].
    - cbn [cache_find]. rewrite pystr_eqb_refl.
      f_equal. eapply cache_find_sound; eassumption.
    - unfold maxsize. cbn [firstn cache_find]. now rewrite pystr_eqb_refl. }
  split; [exact Hfind|].
  unfold clean_company_name_cached at 1. now rewrite Hfind.
Qed.

(** ** The requests of one probe *)

Lemma single_try_urls_prefix (E : env) (company cleaned : pystr)
    (timeout : Z) (start : Q) (urls : list pystr) :
  forall w, exists d w' tried rest,
    single_try_urls E company cleaned timeout start urls w = (Ok d, w')
    /\ urls = tried ++ rest
    /\ trace w' = trace w ++ map EvRequest tried
    /\ (urls <> [] -> tried <> []).
Proof.
  induction urls as [|u urls IH]; intros w.
  - eexists. exists w, [], []. cbn. rewrite app_nil_r.
    repeat split. congruence.
  - destruct (http_get E u timeout) as [code el|reason el] eqn:Hget.
    + destruct (single_try_urls_answer E company cleaned timeout start u urls
                  w code el Hget) as (d & Hd & _).
      exists d, (tick el [EvRequest u] w), [u], urls.
      rewrite Hd. repeat split. discriminate.
    + assert (Hv : fails E timeout u) by (unfold fails; now rewrite Hget).
      rewrite (single_try_urls_skip E company cleaned timeout start u urls
                 w Hv).
      destruct (IH (tick (outcome_elapsed (http_get E u timeout))
                      [EvRequest u] w))
        as (d & w' & tried & rest & Hd & Hurls & Ht & _).
      exists d, w', (u :: tried), rest.
      rewrite Hd, Ht, trace_tick, <- app_assoc, Hurls.
      repeat split. discriminate.
Qed.

(** X16. One probe of the pooled strategy requests an initial part of the
    candidate list of its company and nothing else: at least one URL, at
    most six, none of them twice, and never through the rate limiter. *)
Theorem check_single_company_requests (E : env) (timeout : Z) (start : Q)
    (company : pystr) (w : world) :
  exists tried rest,
    trace (snd (check_single_company E timeout start company w))
    = trace w ++ map EvRequest tried
    /\ generate_website_urls E company = tried ++ rest
    /\ NoDup tried
    /\ (1 <= List.length tried <= 6)%nat.
Proof.
  rewrite check_single_company_unfold.
  destruct (single_try_urls_prefix E company (clean_company_name company)
              timeout start (generate_website_urls E company) w)
    as (d & w' & tried & rest & Hd & Hurls & Ht & Hne).
  exists tried, rest. rewrite Hd. cbn [snd].
  split; [exact Ht|]. split; [exact Hurls|].
  pose proof (generate_website_urls_NoDup E company) as Hnd.
  rewrite Hurls in Hnd. split; [now apply NoDup_app_remove_r in Hnd|].
  assert (Hlen : List.length (generate_website_urls E company) = 6%nat)
    by reflexivity.
  rewrite Hurls, length_app in Hlen.
  specialize (Hne (generate_website_urls_not_nil E company)).
  destruct tried; [congruence | cbn [List.length] in *; lia].
Qed.

(** ** The figures of a summary *)

Lemma count_positive_range (codes : list (option Z)) (n : Z) :
  count_positive codes = Ok n ->
  (0 <= n <= Z.of_nat (List.length codes))%Z.
Proof.
  intros H. apply count_positive_value in H. subst n.
  pose proof (filter_length_le positive_status codes). lia.
Qed.

Lemma fold_left_Qmin_le (xs : list Q) (x : Q) :
  (fold_left Qmin xs x <= x)%Q
  /\ Forall (fun y => (fold_left Qmin xs x <= y)%Q) xs
  /\ In (fold_left Qmin xs x) (x :: xs).
Proof.
  revert x. induction xs as [|y xs IH]; intros x; cbn [fold_left].
  - repeat split; [apply Qle_refl | constructor | now left].
  - destruct (IH (Qmin x y)) as (H1 & H2 & H3).
    assert (Hx : (Qmin x y <= x)%Q /\ (Qmin x y <= y)%Q
                 /\ (Qmin x y = x \/ Qmin x y = y)).
    { unfold Qmin. destruct (Qle_bool x y) eqn:Hb.
      - apply Qle_bool_iff in Hb. repeat split; [apply Qle_refl | assumption | now left].
      - assert (~ (x <= y)%Q) by (rewrite <- Qle_bool_iff; congruence).
        repeat split; [apply Qlt_le_weak, Qnot_le_lt; assumption
                      | apply Qle_refl | now right]. }
    destruct Hx as (Hx1 & Hx2 & Hx3).
    split; [eapply Qle_trans; eassumption|].
    split; [constructor; [eapply Qle_trans; eassumption | assumption]|].
    destruct H3 as [H3|H3]; [|now right; right].
    rewrite <- H3. destruct Hx3 as [->| ->]; [now left | now right; left].
Qed.

Lemma fold_left_Qmax_ge (xs : list Q) (x : Q) :
  (x <= fold_left Qmax xs x)%Q
  /\ Forall (fun y => (y <= fold_left Qmax xs x)%Q) xs
  /\ In (fold_left Qmax xs x) (x :: xs).
Proof.
  revert x. induction xs as [|y xs IH]; intros x; cbn [fold_left].
  - repeat split; [apply Qle_refl | constructor | now left].
  - destruct (IH (Qmax x y)) as (H1 & H2 & H3).
    assert (Hx : (x <= Qmax x y)%Q /\ (y <= Qmax x y)%Q
                 /\ (Qmax x y = x \/ Qmax x y = y)).
    { unfold Qmax. destruct (Qle_bool x y) eqn:Hb.
      - apply Qle_bool_iff in Hb. repeat split; [assumption | apply Qle_refl | now right].
      - assert (~ (x <= y)%Q) by (rewrite <- Qle_bool_iff; congruence).
        repeat split; [apply Qle_refl
                      | apply Qlt_le_weak, Qnot_le_lt; assumption
                      | now left]. }
    destruct Hx as (Hx1 & Hx2 & Hx3).
    split; [eapply Qle_trans; eassumption|].
    split; [constructor; [eapply Qle_trans; eassumption | assumption]|].
    destruct H3 as [H3|H3]; [|now right; right].
    rewrite <- H3. destruct Hx3 as [->| ->]; [now left | now right; left].
Qed.

Lemma success_ratio_range (a : Z) (n : nat) :
  (0 <= a <= Z.of_nat (S n))%Z ->
  (0 <= inject_Z a / inject_Z (Z.of_nat (S n)) * 100 <= 100)%Q.
Proof.
  intros [H0 H1].
  assert (Hn : (0 < inject_Z (Z.of_nat (S n)))%Q).
  { change 0%Q with (inject_Z 0). rewrite <- Zlt_Qlt. lia. }
  assert (Ha0 : (0 <= inject_Z a)%Q).
  { change 0%Q with (inject_Z 0). now rewrite <- Zle_Qle. }
  assert (Ha1 : (inject_Z a <= inject_Z (Z.of_nat (S n)))%Q)
    by now rewrite <- Zle_Qle.
  assert (Hlo : (0 <= inject_Z a / inject_Z (Z.of_nat (S n)))%Q).
  { apply Qle_shift_div_l; [assumption|]. now rewrite Qmult_0_l. }
  assert (Hhi : (inject_Z a / inject_Z (Z.of_nat (S n)) <= 1)%Q).
  { apply Qle_shift_div_r; [assumption|]. now rewrite Qmult_1_l. }
  split; lra.
Qed.

(** X17. The figures of a summary are consistent with the result list:
    the successful checks are between 0 and the total, the success rate is
    between 0 and 100, and the minimum and the maximum response time are
    times of entries of the list that bound the time of every entry. *)
Theorem analyze_performance_bounds (results : list result_dict)
    (m : performance_metrics) :
  analyze_performance results = Ok m ->
  (0 <= successful_checks m <= Z.of_nat (total_companies m))%Z
  /\ (0 <= success_rate m <= 100)%Q
  /\ (forall d, In d results ->
        (min_response_time m <= time_taken d <= max_response_time m)%Q)
  /\ (exists d, In d results /\ min_response_time m = time_taken d)
  /\ (exists d, In d results /\ max_response_time m = time_taken d).
Proof.
  unfold analyze_performance.
  destruct (count_positive (map status_code results)) as [n| |] eqn:Hn;
    cbn [rbind]; try discriminate.
  apply count_positive_range in Hn. rewrite length_map in Hn.
  destruct results as [|d0 results]; [discriminate|].
  cbn [true_div List.length rbind map statistics_mean statistics_median
       py_min py_max].
  destruct (Nat.odd _); cbn [rbind]; intros [= <-];
    cbn [successful_checks total_companies success_rate min_response_time
         max_response_time].
  all: destruct (fold_left_Qmin_le (map time_taken results) (time_taken d0))
         as (Hmin0 & Hmin & Hmin_in).
  all: destruct (fold_left_Qmax_ge (map time_taken results) (time_taken d0))
         as (Hmax0 & Hmax & Hmax_in).
  all: rewrite Forall_forall in Hmin, Hmax.
  all: (split; [exact Hn|]);
       (split; [now apply success_ratio_range|]);
       (split;
        [ intros d [<-|Hin];
          [ split; assumption
          | split; [apply Hmin | apply Hmax]; now apply in_map ]
        | ]).
  all: split;
       [ change (time_taken d0 :: map time_taken results)
           with (map time_taken (d0 :: results)) in Hmin_in;
         apply in_map_iff in Hmin_in;
         destruct Hmin_in as (d & Hd & Hin); exists d; now split
       | change (time_taken d0 :: map time_taken results)
           with (map time_taken (d0 :: results)) in Hmax_in;
         apply in_map_iff in Hmax_in;
         destruct Hmax_in as (d & Hd & Hin); exists d; now split ].
Qed.

Lemma analyze_performance_bounds_witness :
  exists m,
    analyze_performance [entry_answered; entry_given_up_parallel] = Ok m
    /\ (0 <= successful_checks m <= Z.of_nat (total_companies m))%Z
    /\ (0 <= success_rate m <= 100)%Q.
Proof.
  destruct (analyze_performance [entry_answered; entry_given_up_parallel])
    as [m| |] eqn:Hm; try (cbv in Hm; discriminate).
  exists m. split; [reflexivity|].
  destruct (analyze_performance_bounds
              [entry_answered; entry_given_up_parallel] m Hm)
    as (H1 & H2 & _).
  split; assumption.
Defined.
